(** * repoforge: a shallow embedding of [generator.py] and [repoforge/repoforge.py]

    The two modules are near copies of each other.  [generator.py] fixes the
    configuration in module constants and filters ignored extensions while
    rendering the tree; [repoforge/repoforge.py] takes the configuration as
    arguments and renders every file.  Both are embedded once, over a [config]
    record and a [variant], and instantiated in the modules [Generator] and
    [Repoforge] at the end of the definitions.

    Conventions of the embedding
    - a Python [str] is a [string], the bytes of its UTF-8 encoding;
      [strip] removes the whitespace characters of Unicode, of one, two or
      three bytes; [lower] acts on ASCII only;
    - a Python [int] is a [Z], a file size an [N];
    - a Python [set] of strings is a [gset string];
    - the file system is a finite tree; each directory lists its entries in
      the order the operating system enumerates them;
    - every access to the file system is recorded, in order, in a log that
      the computation threads through; exceptions are explicit results. *)

From Stdlib Require Import ZArith NArith Lia List Ascii String DecimalString.
From Stdlib Require OrderedTypeEx.
From Stdlib Require Import Sorted.
From stdpp Require Import base gmap strings list.
Import ListNotations.

#[local] Set Warnings "-register-all".
#[local] Open Scope string_scope.
#[local] Open Scope list_scope.
#[local] Open Scope Z_scope.

(** ** Python strings *)

Module PyStr.

(** The line feed character, ["\n"]. *)
Definition nl : ascii := "010"%char.
Definition NL : string := String nl "".

Definition is_nl (c : ascii) : bool := Ascii.eqb c nl.

(** Iterating over a text file yields its lines, each one keeping its
    terminating ["\n"]; only the last line may lack one. *)
Fixpoint readlines (s : string) : list string :=
  match s with
  | "" => []
  | String c s' =>
      if is_nl c then NL :: readlines s'
      else match readlines s' with
           | [] => [String c ""]
           | l :: ls => String c l :: ls
           end
  end.

(** [s.rstrip('\n')]: every trailing line feed is removed. *)
Fixpoint rstrip_nl (s : string) : string :=
  match s with
  | "" => ""
  | String c s' =>
      match rstrip_nl s' with
      | "" => if is_nl c then "" else String c ""
      | r => String c r
      end
  end.

(** ["\n".join(l)]. *)
Definition join_nl (l : list string) : string := String.concat NL l.

(** [s.split("\n")]: never empty, [[""]] for the empty string. *)
Fixpoint split_nl (s : string) : list string :=
  match s with
  | "" => [""]
  | String c s' =>
      if is_nl c then "" :: split_nl s'
      else match split_nl s' with
           | [] => [String c ""]
           | l :: ls => String c l :: ls
           end
  end.

(** [c.isspace()] for a character of one byte: tab, line feed, vertical
    tab, form feed, carriage return, the four separators 28-31 and the
    space. *)
Definition isspace (c : ascii) : bool :=
  let n := N_of_ascii c in
  ((9 <=? n) && (n <=? 13) || (28 <=? n) && (n <=? 32))%N.

(** The whitespace characters of two bytes: U+0085 and U+00A0. *)
Definition isspace2 (c1 c2 : ascii) : bool :=
  let n1 := N_of_ascii c1 in
  let n2 := N_of_ascii c2 in
  ((n1 =? 194) && ((n2 =? 133) || (n2 =? 160)))%N.

(** The whitespace characters of three bytes: U+1680, U+2000 to U+200A,
    U+2028, U+2029, U+202F, U+205F and U+3000. *)
Definition isspace3 (c1 c2 c3 : ascii) : bool :=
  let n1 := N_of_ascii c1 in
  let n2 := N_of_ascii c2 in
  let n3 := N_of_ascii c3 in
  ((n1 =? 225) && (n2 =? 154) && (n3 =? 128)
   || (n1 =? 226) && (n2 =? 128)
      && ((128 <=? n3) && (n3 <=? 138)
          || (n3 =? 168) || (n3 =? 169) || (n3 =? 175))
   || (n1 =? 226) && (n2 =? 129) && (n3 =? 159)
   || (n1 =? 227) && (n2 =? 128) && (n3 =? 128))%N.

(** The number of bytes of the whitespace character that [s] starts with,
    [0] when it starts with none. *)
Definition space_width (s : string) : nat :=
  match s with
  | "" => 0%nat
  | String c1 s1 =>
      if isspace c1 then 1%nat
      else match s1 with
           | "" => 0%nat
           | String c2 s2 =>
               if isspace2 c1 c2 then 2%nat
               else match s2 with
                    | "" => 0%nat
                    | String c3 _ => if isspace3 c1 c2 c3 then 3%nat else 0%nat
                    end
           end
  end.

(** [s.isspace()], but true of the empty string: [s] is a sequence of
    whitespace characters. *)
Fixpoint all_space (s : string) : bool :=
  match s with
  | "" => true
  | String _ s1 =>
      match space_width s with
      | 0%nat => false
      | 1%nat => all_space s1
      | 2%nat => match s1 with
                 | String _ s2 => all_space s2
                 | "" => false
                 end
      | _ => match s1 with
             | String _ (String _ s3) => all_space s3
             | _ => false
             end
      end
  end.

(** [s.lstrip()]. *)
Fixpoint lstrip (s : string) : string :=
  match s with
  | "" => ""
  | String _ s1 =>
      match space_width s with
      | 0%nat => s
      | 1%nat => lstrip s1
      | 2%nat => match s1 with
                 | String _ s2 => lstrip s2
                 | "" => s
                 end
      | _ => match s1 with
             | String _ (String _ s3) => lstrip s3
             | _ => s
             end
      end
  end.

(** [s.rstrip()]: the text up to its longest ending made of whitespace
    characters. *)
Fixpoint rstrip (s : string) : string :=
  match s with
  | "" => ""
  | String c s' => if all_space s then "" else String c (rstrip s')
  end.

(** [s.strip()]. *)
Definition strip (s : string) : string := rstrip (lstrip s).

Definition lower_char (c : ascii) : ascii :=
  let n := N_of_ascii c in
  if ((65 <=? n) && (n <=? 90))%N then ascii_of_N (n + 32) else c.

(** [s.lower()]. *)
Fixpoint lower (s : string) : string :=
  match s with
  | "" => ""
  | String c s' => String (lower_char c) (lower s')
  end.

(** [s.rfind(c)]: the highest index of [c], or [-1]. *)
Fixpoint rfind_from (c : ascii) (s : string) (i : Z) : Z :=
  match s with
  | "" => -1
  | String a s' =>
      let r := rfind_from c s' (i + 1) in
      if r >=? 0 then r else if Ascii.eqb a c then i else -1
  end.
Definition rfind (c : ascii) (s : string) : Z := rfind_from c s 0.

(** [s[i:j]], for [0 <= i]. *)
Definition slice (s : string) (i j : Z) : string :=
  String.substring (Z.to_nat i) (Z.to_nat (j - i)) s.

Fixpoint has_non_dot (s : string) : bool :=
  match s with
  | "" => false
  | String c s' => negb (Ascii.eqb c "."%char) || has_non_dot s'
  end.

(** [os.path.splitext] on POSIX ([genericpath._splitext] with separator
    ["/"] and extension separator ["."]): the extension starts at the last
    dot of the last path component, unless only dots precede it there. *)
Definition splitext (p : string) : string * string :=
  let sepIndex := rfind "/"%char p in
  let dotIndex := rfind "."%char p in
  if dotIndex >? sepIndex then
    let filenameIndex := sepIndex + 1 in
    if has_non_dot (slice p filenameIndex dotIndex)
    then (slice p 0 dotIndex, slice p dotIndex (Z.of_nat (String.length p)))
    else (p, "")
  else (p, "").

(** [str(n)] for a non-negative integer. *)
Definition str_of_N (n : N) : string := NilZero.string_of_uint (N.to_uint n).

(** [sorted], on entries compared by name: a stable sort under the
    code-point order of the names. *)
Fixpoint insert_sorted {A} (x : string * A) (l : list (string * A))
  : list (string * A) :=
  match l with
  | [] => [x]
  | y :: l' => if String.leb x.1 y.1 then x :: y :: l'
               else y :: insert_sorted x l'
  end.

Fixpoint sorted {A} (l : list (string * A)) : list (string * A) :=
  match l with
  | [] => []
  | x :: l' => insert_sorted x (sorted l')
  end.

End PyStr.
Import PyStr.

(** ** Exceptions, file-system events and the monad of the embedding *)

Inductive exn :=
| ValueError (msg : string)
| OSError (msg : string)
| UnicodeDecodeError (msg : string).

(** [str(e)], as an f-string renders the exception. *)
Definition str_of_exn (e : exn) : string :=
  match e with
  | ValueError m | OSError m | UnicodeDecodeError m => m
  end.

Inductive result (A : Type) :=
| Ok (a : A)
| Raise (e : exn).
Arguments Ok {A} a.
Arguments Raise {A} e.

(** A path is the list of names leading from the root directory that
    [generate_prompt] was given ([os.path.join] appends one name). *)
Definition path := list string.

Inductive event :=
| Listdir (p : path)    (* os.listdir(p), in the tree renderer *)
| Isdir (p : path)      (* os.path.isdir(p) *)
| Scandir (p : path)    (* os.walk lists directory p *)
| Getsize (p : path)    (* os.path.getsize(p) *)
| Open (p : path)       (* open(p, 'r', encoding='utf-8') *)
| Readline (p : path).  (* one line fetched from the open file p *)

Definition log := list event.

(** A computation reads and extends the log and returns or raises. *)
Definition M (A : Type) : Type := log -> result A * log.

Definition ret {A} (a : A) : M A := fun l => (Ok a, l).
Definition raise {A} (e : exn) : M A := fun l => (Raise e, l).
Definition bind {A B} (m : M A) (f : A -> M B) : M B :=
  fun l => match m l with
           | (Ok a, l') => f a l'
           | (Raise e, l') => (Raise e, l')
           end.
Definition emit (e : event) : M unit := fun l => (Ok tt, l ++ [e]).

(** [try: m  except Exception as e: h e]. *)
Definition try_except {A} (m : M A) (h : exn -> M A) : M A :=
  fun l => match m l with
           | (Ok a, l') => (Ok a, l')
           | (Raise e, l') => h e l'
           end.

Declare Scope py_scope.
Delimit Scope py_scope with py.
Notation "x <- m ;; k" := (bind m (fun x => k))
  (at level 100, m at next level, right associativity) : py_scope.
Notation "m ;;; k" := (bind m (fun _ => k))
  (at level 100, right associativity) : py_scope.
#[local] Open Scope py_scope.

(** ** The file system *)

(** What [open] and the iteration over the file's lines do. *)
Inductive content :=
| Unopenable (e : exn)
    (* open() raises e *)
| Stream (text : string) (tail : option exn).
    (* the iteration delivers the lines of [text], then stops, or raises
       [tail] (an undecodable byte, an I/O error).  [text] is what is
       delivered before the failure, not what is stored: the file is decoded
       a block of bytes at a time, and a byte that cannot be decoded fails
       the fetch that reads its block, before any line of that block is
       delivered *)

Record file := {
  f_size : result N;       (* os.path.getsize: the size in bytes, or an OSError *)
  f_content : content
}.

Inductive node :=
| File (f : file)
| Dir (listing_error : option exn) (entries : list (string * node)).
    (* listing_error: listing the directory fails (PermissionError) *)

Definition is_dir (n : node) : bool :=
  match n with Dir _ _ => true | File _ => false end.

(** ** Configuration *)

Record config := {
  ignored_dirs : gset string;
  ignored_extensions : gset string;
  max_file_size_bytes : Z;
  max_summary_lines : Z
}.

(** The tree renderer of [generator.py] skips files with an ignored
    extension, the one of [repoforge.py] lists every file. *)
Inductive variant := GeneratorPy | RepoforgePy.

Definition tree_filters_extensions (v : variant) : bool :=
  match v with GeneratorPy => true | RepoforgePy => false end.

(** ** The program *)

Record FileSummary := { name : string; summary : string }.
Record DirectoryEntry := { directory : string; files : list FileSummary }.

Definition TRUNCATED : string := "... [Truncated]".
Definition TEE : string := "├── ".
Definition ELL : string := "└── ".
Definition BAR : string := "│   ".
Definition GAP : string := "    ".

(** A subdirectory as the tree renderer meets it: the recursive call on the
    joined path is the renderer of the subtree found there. *)
Definition render : Type := path -> string -> M (list string).

(** The files of a directory, as [os.walk] hands them to the loop body. *)
Definition files_of (es : list (string * node)) : list (string * file) :=
  omap (fun e => match e.2 with File f => Some (e.1, f) | Dir _ _ => None end) es.

(** [os.path.relpath(current_path, root_dir)]. *)
Definition relpath (current_path : path) : string :=
  match current_path with
  | [] => "."
  | _ => String.concat "/" current_path
  end.

Definition os_path_isdir (p : path) (answer : bool) : M bool :=
  emit (Isdir p) ;;; ret answer.

Definition os_path_getsize (p : path) (f : file) : M N :=
  emit (Getsize p) ;;;
  match f_size f with
  | Ok n => ret n
  | Raise e => raise e
  end.

(** The [for i, line in enumerate(f)] loop of [summarize_text_file]:
    [lines] are the lines still to come, [i] the index of the next one. *)
Fixpoint read_loop (filepath : path) (lines : list string) (tail : option exn)
    (i max_lines : Z) (summary_lines : list string) : M (list string) :=
  match lines with
  | [] => match tail with
          | None => ret summary_lines
          | Some e => raise e
          end
  | line :: rest =>
      emit (Readline filepath) ;;;
      if i >=? max_lines then ret (summary_lines ++ [TRUNCATED])
      else read_loop filepath rest tail (i + 1) max_lines
             (summary_lines ++ [rstrip_nl line])
  end.

Definition summarize_text_file (filepath : path) (f : file) (max_lines : Z)
  : M string :=
  summary_lines <-
    try_except
      (emit (Open filepath) ;;;
       match f_content f with
       | Unopenable e => raise e
       | Stream text tail =>
           read_loop filepath (readlines text) tail 0 max_lines []
       end)
      (fun e => ret ["Error reading file: " +:+ str_of_exn e]) ;;
  ret (join_nl summary_lines).

Definition size_placeholder (size_bytes : N) : string :=
  "File size (" +:+ str_of_N size_bytes +:+ " bytes) exceeds limit; skipping content.".

(** [format_prompt_xml] does no input or output. *)
Definition truthy (s : option string) : bool :=
  match s with
  | Some (String _ _) => true
  | Some "" | None => false
  end.

Definition text_of (s : option string) : string :=
  match s with Some t => t | None => "" end.

(** The double quote character of the f-strings. *)
Definition QUOTE : string := String "034"%char "".

Definition format_file (file_info : FileSummary) : list string :=
  [ "    <file name=" +:+ QUOTE +:+ name file_info +:+ QUOTE +:+ ">";
    "      <content>" ]
  ++ map (fun line => "         " +:+ line) (split_nl (summary file_info))
  ++ [ "      </content>";
       "    </file>" ].

Definition format_entry (entry : DirectoryEntry) : list string :=
  let dir_path :=
    match directory entry with "" => "(top-level)" | d => d end in
  [ "  <directory name=" +:+ QUOTE +:+ dir_path +:+ QUOTE +:+ ">" ]
  ++ concat (map format_file (files entry))
  ++ [ "  </directory>" ].

Definition prompt_parts (repo_summary : list DirectoryEntry)
    (directory_tree : string) (system_message user_instructions : option string)
  : list string :=
    [ "DIRECTORY TREE:"; directory_tree; "" ]
    ++ [ "<SYSTEM_MESSAGE>";
         if truthy system_message then strip (text_of system_message)
         else "No system message provided.";
         "</SYSTEM_MESSAGE>" +:+ NL ]
    ++ [ "<USER_INSTRUCTIONS>";
         if truthy user_instructions then strip (text_of user_instructions)
         else "No user instructions provided.";
         "</USER_INSTRUCTIONS>" +:+ NL ]
    ++ [ "<REPOSITORY_CONTENTS>" ]
    ++ concat (map format_entry repo_summary)
    ++ [ "</REPOSITORY_CONTENTS>" ].

Definition format_prompt_xml (repo_summary : list DirectoryEntry)
    (directory_tree : string) (system_message user_instructions : option string)
  : string :=
  join_nl (prompt_parts repo_summary directory_tree
             system_message user_instructions).

Section Program.

(** [os.path.basename(os.path.normpath(p))], a function of the path string
    alone. *)
Variable basename_normpath : string -> string.
Variable v : variant.
Variable cfg : config.

(** The loop of [walk_directory] over [enumerate(entries)]; the entries
    carry the answer of [os.path.isdir] and the renderer of the subtree. *)
Fixpoint tree_loop (p : path) (prefix : string) (len i : Z)
    (entries : list (string * (bool * render))) : M (list string) :=
  match entries with
  | [] => ret []
  | (entry, (isd, walk_child)) :: rest =>
      let full_path := p ++ [entry] in
      let connector := if i =? len - 1 then ELL else TEE in
      d <- os_path_isdir full_path isd ;;
      lines <-
        (if d then
           let new_prefix := prefix +:+ (if i =? len - 1 then GAP else BAR) in
           below <- walk_child full_path new_prefix ;;
           ret ((prefix +:+ connector +:+ entry +:+ "/") :: below)
         else if tree_filters_extensions v
                 && bool_decide (lower (splitext entry).2 ∈ ignored_extensions cfg)
         then ret []
         else ret [prefix +:+ connector +:+ entry]) ;;
      more <- tree_loop p prefix len (i + 1) rest ;;
      ret (lines ++ more)
  end.

(** [walk_directory(path, prefix)]; the result is the list of lines the
    call appends to [tree_lines]. *)
Fixpoint walk_directory (n : node) : render :=
  fun p prefix =>
    emit (Listdir p) ;;;
    match n with
    | File _ => raise (OSError "Not a directory")
    | Dir (Some e) _ => raise e
    | Dir None es =>
        let entries :=
          sorted (map (fun e => (e.1, (is_dir e.2, walk_directory e.2))) es) in
        let entries := filter (fun e => e.1 ∉ ignored_dirs cfg) entries in
        tree_loop p prefix (Z.of_nat (length entries)) 0 entries
    end.

Definition create_directory_tree (root_dir : string) (root : node) : M string :=
  let root_basename :=
    match basename_normpath root_dir with
    | "" => root_dir
    | b => b
    end in
  lines <- walk_directory root [] "" ;;
  ret (join_nl ((root_basename +:+ "/") :: lines)).

(** The body of [for filename in files]: the new value of
    [file_summaries]. *)
Definition file_step (current_path : path) (filename : string) (f : file)
    (file_summaries : list FileSummary) : M (list FileSummary) :=
  if bool_decide (lower (splitext filename).2 ∈ ignored_extensions cfg)
  then ret file_summaries
  else
    let full_path := current_path ++ [filename] in
    size_bytes <- os_path_getsize full_path f ;;
    if Z.of_N size_bytes >? max_file_size_bytes cfg then
      ret (file_summaries ++
           [ {| name := filename; summary := size_placeholder size_bytes |} ])
    else
      file_content_summary <-
        summarize_text_file full_path f (max_summary_lines cfg) ;;
      ret (file_summaries ++
           [ {| name := filename; summary := file_content_summary |} ]).

Fixpoint file_loop (current_path : path) (files : list (string * file))
    (file_summaries : list FileSummary) : M (list FileSummary) :=
  match files with
  | [] => ret file_summaries
  | (filename, f) :: rest =>
      file_summaries <- file_step current_path filename f file_summaries ;;
      file_loop current_path rest file_summaries
  end.

(** The subdirectories [os.walk] descends into after the loop body has
    pruned [dirs]; [walk] is the traversal of one of them. *)
Section Descend.
Variable walk : node -> path -> M (list DirectoryEntry).

Fixpoint descend (current_path : path) (es : list (string * node))
  : M (list DirectoryEntry) :=
  match es with
  | [] => ret []
  | (d, child) :: es' =>
      if is_dir child && bool_decide (d ∉ ignored_dirs cfg)
      then r <- walk child (current_path ++ [d]) ;;
           rs <- descend current_path es' ;;
           ret (r ++ rs)
      else descend current_path es'
  end.
End Descend.

(** [for current_path, dirs, files in os.walk(...)], top down from
    [current_path]; the result is the list of entries appended to
    [repo_summary].  [os.walk] ignores a directory it cannot list. *)
Fixpoint walk (n : node) (current_path : path) : M (list DirectoryEntry) :=
  emit (Scandir current_path) ;;;
  match n with
  | File _ | Dir (Some _) _ => ret []
  | Dir None es =>
      let rel_dir := relpath current_path in
      let rel_dir := if String.eqb rel_dir "." then "" else rel_dir in
      file_summaries <- file_loop current_path (files_of es) [] ;;
      let own :=
        match file_summaries with
        | [] => []
        | _ => [ {| directory := rel_dir; files := file_summaries |} ]
        end in
      below <- descend walk current_path es ;;
      ret (own ++ below)
  end.

Definition create_repo_summary (root : node) : M (list DirectoryEntry) :=
  walk root [].

(** [root] is what the path [repo_dir] names, if anything. *)
Definition generate_prompt (repo_dir : string) (root : option node)
    (system_message user_instructions : option string) : M string :=
  d <- os_path_isdir [] (match root with Some r => is_dir r | None => false end) ;;
  match root with
  | Some r =>
      if negb d
      then raise (ValueError ("Directory " +:+ repo_dir +:+ " does not exist."))
      else
        directory_tree <- create_directory_tree repo_dir r ;;
        repo_summary <- create_repo_summary r ;;
        ret (format_prompt_xml repo_summary directory_tree
               system_message user_instructions)
  | None =>
      raise (ValueError ("Directory " +:+ repo_dir +:+ " does not exist."))
  end.

End Program.

(** ** The two modules *)

Definition DEFAULT_IGNORED_DIRS : gset string :=
  {[ ".git"; "__pycache__"; ".idea"; ".vscode" ]}.
Definition DEFAULT_IGNORED_EXTENSIONS : gset string :=
  {[ ".pyc"; ".png"; ".jpg"; ".jpeg"; ".gif"; ".pdf"; ".zip" ]}.
Definition DEFAULT_MAX_SUMMARY_LINES : Z := 500.

(** [generator.py] *)
Module Generator.
Definition IGNORED_DIRS := DEFAULT_IGNORED_DIRS.
Definition IGNORED_EXTENSIONS := DEFAULT_IGNORED_EXTENSIONS.
Definition MAX_FILE_SIZE_BYTES : Z := 100000.
Definition MAX_SUMMARY_LINES := DEFAULT_MAX_SUMMARY_LINES.

Definition constants : config :=
  {| ignored_dirs := IGNORED_DIRS;
     ignored_extensions := IGNORED_EXTENSIONS;
     max_file_size_bytes := MAX_FILE_SIZE_BYTES;
     max_summary_lines := MAX_SUMMARY_LINES |}.

Definition create_directory_tree basename_normpath :=
  create_directory_tree basename_normpath GeneratorPy constants.
Definition create_repo_summary := create_repo_summary constants.
Definition generate_prompt basename_normpath :=
  generate_prompt basename_normpath GeneratorPy constants.
End Generator.

(** [repoforge/repoforge.py] *)
Module Repoforge.
(** [1e20], compared exactly with the integer size. *)
Definition DEFAULT_MAX_FILE_SIZE_BYTES : Z := 10 ^ 20.

Definition defaults : config :=
  {| ignored_dirs := DEFAULT_IGNORED_DIRS;
     ignored_extensions := DEFAULT_IGNORED_EXTENSIONS;
     max_file_size_bytes := DEFAULT_MAX_FILE_SIZE_BYTES;
     max_summary_lines := DEFAULT_MAX_SUMMARY_LINES |}.

Definition create_directory_tree basename_normpath (ignored : gset string) :=
  create_directory_tree basename_normpath RepoforgePy
    {| ignored_dirs := ignored;
       ignored_extensions := DEFAULT_IGNORED_EXTENSIONS;
       max_file_size_bytes := DEFAULT_MAX_FILE_SIZE_BYTES;
       max_summary_lines := DEFAULT_MAX_SUMMARY_LINES |}.
Definition create_repo_summary (cfg : config) := create_repo_summary cfg.
Definition generate_prompt basename_normpath (cfg : config) :=
  generate_prompt basename_normpath RepoforgePy cfg.
End Repoforge.

(** ** Specification-side definitions *)

(** A line without its line terminator. *)
Fixpoint chomp (line : string) : string :=
  match line with
  | "" => ""
  | String c "" => if is_nl c then "" else line
  | String c rest => String c (chomp rest)
  end.

(** The number of lines of a text. *)
Definition line_count (text : string) : Z := Z.of_nat (length (readlines text)).

(** What the spec asks of the summary of a readable file: the first
    [min n max_lines] lines without their terminators, then the marker
    exactly when [n > max_lines]. *)
Definition expected_summary (text : string) (max_lines : Z) : list string :=
  let n := line_count text in
  map chomp (take (Z.to_nat (Z.min n max_lines)) (readlines text))
  ++ (if n >? max_lines then [TRUNCATED] else []).

Fixpoint no_nl (s : string) : bool :=
  match s with
  | "" => true
  | String c s' => negb (is_nl c) && no_nl s'
  end.

(** A line of a file: a body free of line feeds, with or without its
    terminator. *)
Definition is_line (l : string) : Prop :=
  exists b, no_nl b = true /\ (l = b \/ l = b +:+ NL).

(** What the spec asks of a section of the prompt: the fallback when the
    text is absent or empty, the trimmed text otherwise. *)
Definition section_text (fallback : string) (text : option string) : string :=
  match text with
  | None | Some "" => fallback
  | Some t => strip t
  end.

(** [s] starts with a whitespace character. *)
Definition starts_with_space (s : string) : bool :=
  negb (Nat.eqb (space_width s) 0).

(** [s] is one whitespace character. *)
Definition one_space (s : string) : bool :=
  negb (Nat.eqb (space_width s) 0) && Nat.eqb (space_width s) (String.length s).

(** [s] ends with a whitespace character. *)
Fixpoint ends_with_space (s : string) : bool :=
  match s with
  | "" => false
  | String _ s' => one_space s || ends_with_space s'
  end.

(** [t] is [s] with its leading and trailing whitespace removed. *)
Definition is_trim_of (s t : string) : Prop :=
  exists a b, s = a +:+ t +:+ b
    /\ all_space a = true /\ all_space b = true
    /\ starts_with_space t = false /\ ends_with_space t = false.

Definition nine_spaces : string := string_of_list_ascii (repeat " "%char 9).

(** ** What the walker is specified against *)

Section Visited.
Variable cfg : config.

(** A file the walker keeps: the lower-cased extension of its name is not
    in the ignored-extension set.  Its size plays no part. *)
Definition eligible (filename : string) : Prop :=
  lower (splitext filename).2 ∉ ignored_extensions cfg.

#[export] Instance eligible_dec filename : Decision (eligible filename).
Proof. unfold eligible. apply _. Defined.

Definition has_eligible (es : list (string * node)) : bool :=
  bool_decide (Exists (fun e => eligible e.1) (files_of es)).

(** The directories the traversal goes through below [p], in pre-order:
    every subdirectory whose name is not ignored, whatever it holds.  A
    directory that cannot be listed shows no entries. *)
Section Below.
Variable visited : node -> path -> list (path * list (string * node)).

Fixpoint visited_below (p : path) (es : list (string * node))
  : list (path * list (string * node)) :=
  match es with
  | [] => []
  | (d, child) :: es' =>
      if is_dir child && bool_decide (d ∉ ignored_dirs cfg)
      then visited child (p ++ [d]) ++ visited_below p es'
      else visited_below p es'
  end.
End Below.

Fixpoint visited (n : node) (p : path) : list (path * list (string * node)) :=
  match n with
  | Dir None es => (p, es) :: visited_below visited p es
  | Dir (Some _) _ | File _ => [(p, [])]
  end.

(** The [directory] field of the entry of the directory at [p]. *)
Definition rel_dir (p : path) : string :=
  if String.eqb (relpath p) "." then "" else relpath p.

(** [s] is the summary the walker owes the file [f] named [filename] in the
    directory at [p]. *)
Definition summary_of (p : path) (filename : string) (f : file) (s : string)
  : Prop :=
  exists size, f_size f = Ok size /\
    if Z.of_N size >? max_file_size_bytes cfg
    then s = size_placeholder size
    else (summarize_text_file (p ++ [filename]) f (max_summary_lines cfg) []).1
         = Ok s.

Definition file_rel (p : path) (fi : FileSummary) (e : string * file) : Prop :=
  name fi = e.1 /\ summary_of p e.1 e.2 (summary fi).

Definition entry_rel (entry : DirectoryEntry)
    (d : path * list (string * node)) : Prop :=
  directory entry = rel_dir d.1
  /\ Forall2 (file_rel d.1) (files entry)
       (filter (fun e => eligible e.1) (files_of d.2)).

(** The events the walker may add for the file [f] named [filename] in the
    directory at [p]: none unless the file is kept; its size is asked; it
    is opened and read only when its size is within the limit. *)
Definition file_event (p : path) (filename : string) (f : file) (e : event)
  : Prop :=
  eligible filename /\
  (e = Getsize (p ++ [filename])
   \/ exists size, f_size f = Ok size
        /\ Z.of_N size <= max_file_size_bytes cfg
        /\ (e = Open (p ++ [filename]) \/ e = Readline (p ++ [filename]))).

(** The events the walker may add while it goes through the tree below
    [p]: it lists a directory it goes through, or handles a file of such a
    directory. *)
Definition walk_event (n : node) (p : path) (e : event) : Prop :=
  exists q es, In (q, es) (visited n p) /\
    (e = Scandir q
     \/ exists filename f,
          In (filename, f) (files_of es) /\ file_event q filename f e).

(** Pruning: the tree without the directories that carry an ignored name,
    at any depth. *)
Section PruneEntries.
Variable prune : node -> node.

Fixpoint prune_entries (es : list (string * node))
  : list (string * node) :=
  match es with
  | [] => []
  | (d, child) :: es' =>
      if is_dir child && bool_decide (d ∈ ignored_dirs cfg)
      then prune_entries es'
      else (d, prune child) :: prune_entries es'
  end.
End PruneEntries.

Fixpoint prune (n : node) : node :=
  match n with
  | File f => File f
  | Dir err es => Dir err (prune_entries prune es)
  end.

(** A path none of whose names is ignored. *)
Definition kept_path (q : path) : Prop :=
  Forall (fun d => d ∉ ignored_dirs cfg) q.

(** An event of the walker that stays clear of ignored directories: the
    directory it lists, or the directory of the file it touches, is reached
    through names that are not ignored. *)
Definition walker_event_kept (e : event) : Prop :=
  exists q, kept_path q /\
    (e = Scandir q
     \/ exists filename,
          e = Getsize (q ++ [filename]) \/ e = Open (q ++ [filename])
          \/ e = Readline (q ++ [filename])).

(** An event of the tree renderer that stays clear of ignored names. *)
Definition renderer_event_kept (e : event) : Prop :=
  exists q, kept_path q /\ (e = Listdir q \/ e = Isdir q).

(** An event of the renderer at work below [p]: it touches [p] or a path
    that continues [p] by kept names. *)
Definition renders_below (p : path) (e : event) : Prop :=
  exists ds, kept_path ds /\ (e = Listdir (p ++ ds) \/ e = Isdir (p ++ ds)).

End Visited.

(** The directories listed by [os.walk], in the order of the log. *)
Definition scans (t : log) : list path :=
  omap (fun e => match e with Scandir p => Some p | _ => None end) t.

(** ** Predicates on computations *)

(** A computation is framed when its result and the events it adds do not
    depend on the log it starts from. *)
Definition framed {A} (m : M A) : Prop :=
  forall l, m l = ((m []).1, l ++ (m []).2).

(** Every event the computation adds satisfies [P]. *)
Definition emits {A} (P : event -> Prop) (m : M A) : Prop :=
  forall l r l', m l = (r, l') -> exists t, l' = l ++ t /\ Forall P t.

(** The order [sorted] sorts by. *)
Definition name_le {A} (x y : string * A) : Prop := String.leb x.1 y.1 = true.

(** Two entries of the tree renderer with the same name and directory flag
    whose renderers agree. *)
Definition same_entry (a b : string * (bool * render)) : Prop :=
  a.1 = b.1 /\ a.2.1 = b.2.1
  /\ forall q pre l, a.2.2 q pre l = b.2.2 q pre l.

(** ** File systems and configurations used in the examples *)

Definition text_file (size : N) (text : string) : file :=
  {| f_size := Ok size; f_content := Stream text None |}.

Definition hello_file : file := text_file 6 ("hello" +:+ NL).
Definition empty_file : file := text_file 0 "".
Definition big_file : file := text_file 100001 "x".

(** The example of the spec: [a.txt] next to [.git/config]. *)
Definition example_repo : node :=
  Dir None [ ("a.txt", File hello_file);
             (".git", Dir None [ ("config", File hello_file) ]) ].

Definition example_summary : list DirectoryEntry :=
  [ {| directory := ""; files := [ {| name := "a.txt"; summary := "hello" |} ] |} ].

Definition example_log : log :=
  [ Scandir []; Getsize ["a.txt"]; Open ["a.txt"]; Readline ["a.txt"] ].

(** A directory that holds only a picture, with a subdirectory of sources. *)
Definition pictures_repo : node :=
  Dir None
    [ ("img", Dir None [ ("x.png", File hello_file);
                         ("src", Dir None [ ("m.py", File hello_file) ]) ]) ].

(** A regular file that carries the name of an ignored directory. *)
Definition dotgit_file_repo : node :=
  Dir None [ ("a.txt", File hello_file); (".git", File hello_file) ].

(** A directory entry whose size cannot be read: a dangling symbolic link,
    which [os.walk] lists among the files. *)
Definition no_such_file : exn := OSError "[Errno 2] No such file or directory".

Definition dangling_link : file :=
  {| f_size := Raise no_such_file; f_content := Unopenable no_such_file |}.

Definition dangling_repo : node := Dir None [ ("link", File dangling_link) ].

(** [repoforge.py] called with [ignored_extensions={'.PNG'}]. *)
Definition upper_case_config : config :=
  {| ignored_dirs := DEFAULT_IGNORED_DIRS;
     ignored_extensions := {[ ".PNG" ]};
     max_file_size_bytes := Repoforge.DEFAULT_MAX_FILE_SIZE_BYTES;
     max_summary_lines := DEFAULT_MAX_SUMMARY_LINES |}.

(** The extension of [filename] equals a member of the ignored set up to
    the case of the letters. *)
Definition matches_ignoring_case (cfg : config) (filename : string) : Prop :=
  exists x, x ∈ ignored_extensions cfg
            /\ lower x = lower (splitext filename).2.

(** Whitespace of more than one byte: the no-break space U+00A0 and the
    ideographic space U+3000; and a letter whose last byte is that of the
    no-break space, U+00E0. *)
Definition no_break_space : string := String "194" (String "160" "").
Definition ideographic_space : string :=
  String "227" (String "128" (String "128" "")).
Definition a_grave : string := String "195" (String "160" "").

(** ** The command line *)

Section Main.

Variable basename_normpath : string -> string.
Variable v : variant.
Variable cfg : config.

(** What a path given on the command line names, if anything. *)
Variable resolve : string -> option node.

(** The exception that writing a text to the standard output raises, if
    any: a [UnicodeEncodeError] when the stream cannot encode the text, an
    [OSError] when it is closed. *)
Variable stdout_error : string -> option exn.

(** [print(text)]: the text is written whole, or an exception is raised
    and nothing is written. *)
Definition print (text : string) : M unit :=
  match stdout_error text with
  | Some e => raise e
  | None => ret tt
  end.

Definition usage (prog : string) : string :=
  "Usage: python " +:+ prog
  +:+ " <repo_directory> [<system_message>] [<user_instructions>]".

(** The [__main__] block, for [sys.argv = prog :: args]: the lines printed
    and the exit status ([0] when the block runs to its end, [1] after
    [sys.exit(1)]).  An exception that escapes the block, which ends the
    interpreter with a traceback, is a [Raise]. *)
Definition main (prog : string) (args : list string) : M (list string * Z) :=
  let argv := prog :: args in
  if Z.of_nat (length argv) <? 2 then
    print (usage prog) ;;;
    ret ([usage prog], 1)
  else
    let repo_dir := nth 1 argv "" in
    let system_message :=
      if Z.of_nat (length argv) >? 2 then nth 2 argv "" else "" in
    let user_instructions :=
      if Z.of_nat (length argv) >? 3 then nth 3 argv "" else "" in
    try_except
      (prompt <- generate_prompt basename_normpath v cfg repo_dir
                   (resolve repo_dir)
                   (Some system_message) (Some user_instructions) ;;
       print prompt ;;;
       ret ([prompt], 0))
      (fun e =>
         print ("Error: " +:+ str_of_exn e) ;;;
         ret (["Error: " +:+ str_of_exn e], 1)).

(** What the handler of [main] makes of the exception [e]: the error line
    and the status [1], unless the line cannot be printed either. *)
Definition reported (e : exn) : result (list string * Z) :=
  match stdout_error ("Error: " +:+ str_of_exn e) with
  | None => Ok (["Error: " +:+ str_of_exn e], 1)
  | Some e' => Raise e'
  end.

End Main.

(** ** What the extra theorems are stated against *)

Section Errors.

Variable cfg : config.

(** The errors [os.path.getsize] meets on the kept files of a directory, in
    the order of the listing. *)
Definition size_errors_here (es : list (string * node)) : list exn :=
  omap (fun e => match f_size e.2 with Raise x => Some x | Ok _ => None end)
    (filter (fun e => eligible cfg e.1) (files_of es)).

(** The same over the whole traversal, in the order of the traversal. *)
Definition size_errors (n : node) : list exn :=
  flat_map (fun d => size_errors_here d.2) (visited cfg n []).

(** The errors of the directories that cannot be listed, among those reached
    through kept names. *)
Section UnlistableBelow.
Variable unlistable : node -> list exn.

Fixpoint unlistable_below (es : list (string * node)) : list exn :=
  match es with
  | [] => []
  | (d, child) :: es' =>
      if is_dir child && bool_decide (d ∉ ignored_dirs cfg)
      then unlistable child ++ unlistable_below es'
      else unlistable_below es'
  end.
End UnlistableBelow.

Fixpoint unlistable (n : node) : list exn :=
  match n with
  | File _ => []
  | Dir (Some e) _ => [e]
  | Dir None es => unlistable_below unlistable es
  end.

End Errors.

(** The summary of a text stream: the lines up to the cap when there are
    more lines than the cap, else all lines, or the error that ends them. *)
Definition stream_summary (text : string) (tail : option exn) (max_lines : Z)
  : string :=
  if line_count text >? max_lines then join_nl (expected_summary text max_lines)
  else match tail with
       | None => join_nl (expected_summary text max_lines)
       | Some e => "Error reading file: " +:+ str_of_exn e
       end.

(** The outcome of a run against a list of errors in the order they would
    be met: none and the run returns, or the run raises the first. *)
Definition meets {A} (r : result A) (errors : list exn) : Prop :=
  match r with
  | Ok _ => errors = []
  | Raise e => head errors = Some e
  end.

(** The outcome of the renderer on the subtree [n] against the directories
    of [n] that cannot be listed. *)
Definition stops_at (cfg : config) (n : node) (r : result (list string))
  : Prop :=
  match r with
  | Ok _ => unlistable cfg n = []
  | Raise e => In e (unlistable cfg n)
  end.

(** The entry of the renderer for an entry of the listing. *)
Definition tree_entry (v : variant) (cfg : config) (e : string * node)
  : string * (bool * render) :=
  (e.1, (is_dir e.2, walk_directory v cfg e.2)).

(** The number of lines the renderer owes an entry of a listing and the
    subtree below it: none for an ignored name and, where the renderer
    filters extensions, for a file with an ignored extension. *)
Section TreeSize.

Variable v : variant.
Variable cfg : config.

Section SizeBelow.
Variable tree_size : node -> nat.

Definition entry_size (e : string * node) : nat :=
  if bool_decide (e.1 ∈ ignored_dirs cfg) then 0%nat
  else match e.2 with
       | Dir _ _ => S (tree_size e.2)
       | File _ =>
           if tree_filters_extensions v
              && bool_decide (lower (splitext e.1).2 ∈ ignored_extensions cfg)
           then 0%nat else 1%nat
       end.

Fixpoint tree_size_below (es : list (string * node)) : nat :=
  match es with
  | [] => 0%nat
  | e :: es' => (entry_size e + tree_size_below es')%nat
  end.
End SizeBelow.

Fixpoint tree_size (n : node) : nat :=
  match n with
  | Dir None es => tree_size_below tree_size es
  | Dir (Some _) _ | File _ => 0%nat
  end.

End TreeSize.

(** A line of the tree under the prefix [prefix]. *)
Definition under_prefix (prefix line : string) : Prop :=
  exists rest, line = prefix +:+ rest.

(** A file that cannot be opened, and two files that hold the byte [0xff],
    which is no UTF-8.  In the first it follows two lines of 4096 bytes, which
    fill the first block of 8192 bytes: the two lines are delivered and the
    third fetch, which reads the second block, fails.  In the second it
    follows two lines of two bytes in the one block of the file: the first
    fetch fails and no line is delivered. *)
Definition permission_denied : exn := OSError "[Errno 13] Permission denied".
Definition bad_byte : exn :=
  UnicodeDecodeError "'utf-8' codec can't decode byte 0xff".

Definition locked_file : file :=
  {| f_size := Ok 10%N; f_content := Unopenable permission_denied |}.

Definition long_line : string :=
  string_of_list_ascii (repeat "a"%char 4095) +:+ NL.

Definition broken_file : file :=
  {| f_size := Ok 8193%N;
     f_content := Stream (long_line +:+ long_line) (Some bad_byte) |}.

Definition short_broken_file : file :=
  {| f_size := Ok 5%N; f_content := Stream "" (Some bad_byte) |}.

(** A directory whose last entry by name is a picture. *)
Definition picture_last_repo : node :=
  Dir None [ ("z.png", File hello_file); ("a.txt", File hello_file);
             ("b.txt", File hello_file) ].

(** A directory with a subdirectory that cannot be listed. *)
Definition locked_dir_repo : node :=
  Dir None [ ("a.txt", File hello_file);
             ("private", Dir (Some permission_denied) []) ].

(** * Theorems *)

(** ** Lines *)

Lemma rstrip_nl_no_nl b : no_nl b = true -> rstrip_nl b = b.
Proof.
  induction b as [|c b IH]; simpl; [done|].
  intros [Hc Hb]%andb_prop. rewrite IH by done.
  destruct b; [|done]. by destruct (is_nl c).
Qed.

Lemma rstrip_nl_terminated b : no_nl b = true -> rstrip_nl (b +:+ NL) = b.
Proof.
  induction b as [|c b IH]; simpl; [done|].
  intros [Hc Hb]%andb_prop. rewrite IH by done.
  destruct b; [|done]. by destruct (is_nl c).
Qed.

Lemma chomp_no_nl b : no_nl b = true -> chomp b = b.
Proof.
  induction b as [|c b IH]; simpl; [done|].
  intros [Hc Hb]%andb_prop. rewrite IH by done.
  destruct b; [|done]. by destruct (is_nl c).
Qed.

Lemma chomp_terminated b : no_nl b = true -> chomp (b +:+ NL) = b.
Proof.
  induction b as [|c b IH]; simpl; [done|].
  intros [Hc Hb]%andb_prop. rewrite IH by done.
  destruct b; simpl; [by destruct (is_nl c)|done].
Qed.

Lemma readlines_lines s : Forall is_line (readlines s).
Proof.
  induction s as [|c s IH]; simpl; [constructor|].
  destruct (is_nl c) eqn:Hc.
  - constructor; [|done]. exists "". split; [done|]. by right.
  - destruct (readlines s) as [|l ls]; constructor.
    + exists (String c ""). simpl. rewrite Hc. auto.
    + constructor.
    + inversion IH as [|? ? (b & Hb & Hl) _]; subst.
      exists (String c b). simpl. rewrite Hc, Hb. split; [done|].
      destruct Hl as [-> | ->]; auto.
    + by inversion IH.
Qed.

Lemma rstrip_nl_line l : is_line l -> rstrip_nl l = chomp l.
Proof.
  intros (b & Hb & [-> | ->]).
  - by rewrite rstrip_nl_no_nl, chomp_no_nl.
  - by rewrite rstrip_nl_terminated, chomp_terminated.
Qed.

Lemma read_loop_readable p lines i max_lines acc l :
  Forall is_line lines -> i <= max_lines ->
  read_loop p lines None i max_lines acc l =
    (Ok (acc ++ map chomp (take (Z.to_nat (max_lines - i)) lines)
             ++ (if Z.of_nat (length lines) >? max_lines - i
                 then [TRUNCATED] else [])),
     l ++ repeat (Readline p)
            (Z.to_nat (Z.min (Z.of_nat (length lines)) (max_lines - i + 1)))).
Proof.
  intros Hl. revert i acc l.
  induction Hl as [|line rest Hline _ IH]; intros i acc l Hi.
  - simpl length. unfold read_loop, ret. rewrite take_nil.
    destruct (Z.gtb_spec (Z.of_nat 0) (max_lines - i)); [lia|].
    replace (Z.to_nat _) with 0%nat by lia.
    simpl. by rewrite !app_nil_r.
  - cbn [read_loop]. unfold bind at 1, emit at 1.
    destruct (Z.geb_spec i max_lines) as [Hcap|Hcap].
    + assert (i = max_lines) as -> by lia. unfold ret.
      rewrite Z.sub_diag. simpl take. simpl map.
      destruct (Z.gtb_spec (Z.of_nat (length (line :: rest))) 0);
        [|simpl length in *; lia].
      replace (Z.to_nat _) with 1%nat by (simpl length; lia).
      done.
    + rewrite IH by lia.
      replace (Z.to_nat (max_lines - i))
        with (S (Z.to_nat (max_lines - (i + 1)))) by lia.
      simpl take. simpl map. rewrite (rstrip_nl_line line Hline).
      replace (Z.to_nat (Z.min (Z.of_nat (length (line :: rest))) (max_lines - i + 1)))
        with (S (Z.to_nat (Z.min (Z.of_nat (length rest)) (max_lines - (i + 1) + 1))))
        by (simpl length; lia).
      simpl repeat.
      destruct (Z.gtb_spec (Z.of_nat (length rest)) (max_lines - (i + 1)));
        destruct (Z.gtb_spec (Z.of_nat (length (line :: rest))) (max_lines - i));
        simpl length in *; try lia; by rewrite <- !app_assoc.
Qed.

(** C1.  A file that can be read as text is summarised by its first
    [min n max_lines] lines, each without its terminating line feed, followed
    by one ["... [Truncated]"] line exactly when it has more than [max_lines]
    lines; the file is opened once and [min n (max_lines + 1)] lines are
    fetched from it: the one line past the cap that shows there is more, and
    none after it. *)
Theorem summarize_text_file_readable
    (filepath : path) (f : file) (text : string) (max_lines : Z) (l : log) :
  f_content f = Stream text None ->
  0 <= max_lines ->
  summarize_text_file filepath f max_lines l =
    (Ok (join_nl (expected_summary text max_lines)),
     l ++ Open filepath
         :: repeat (Readline filepath)
              (Z.to_nat (Z.min (line_count text) (max_lines + 1)))).
Proof.
  intros Hf Hmax. unfold summarize_text_file.
  unfold bind at 1, try_except, bind at 1, emit. rewrite Hf.
  rewrite read_loop_readable by (apply readlines_lines || lia).
  unfold ret, expected_summary, line_count. rewrite !Z.sub_0_r. simpl app at 1.
  assert (take (Z.to_nat (Z.min (Z.of_nat (length (readlines text))) max_lines))
            (readlines text) = take (Z.to_nat max_lines) (readlines text)) as ->.
  { destruct (Z.le_gt_cases max_lines (Z.of_nat (length (readlines text)))).
    - by rewrite Z.min_r.
    - rewrite Z.min_l, !take_ge by lia. done. }
  by rewrite <- app_assoc.
Qed.

(** ** The formatter *)

Lemma append_cons c (a b : string) : String c a +:+ b = String c (a +:+ b).
Proof. reflexivity. Qed.

Lemma append_nil (b : string) : "" +:+ b = b.
Proof. reflexivity. Qed.

(** *** Whitespace characters *)

Lemma space_width_le s : (space_width s <= String.length s)%nat.
Proof.
  destruct s as [|c1 [|c2 [|c3 s]]]; simpl;
    repeat match goal with |- context [if ?b then _ else _] => destruct b end;
    lia.
Qed.

Lemma space_width_le_3 s : (space_width s <= 3)%nat.
Proof.
  destruct s as [|c1 [|c2 [|c3 s]]]; simpl;
    repeat match goal with |- context [if ?b then _ else _] => destruct b end;
    lia.
Qed.

(** The width is read off the bytes of the character alone. *)
Lemma space_width_app p b :
  space_width p <> 0%nat -> space_width (p +:+ b) = space_width p.
Proof.
  destruct p as [|c1 [|c2 [|c3 p]]]; rewrite ?append_cons, ?append_nil;
    simpl; try done;
    repeat match goal with |- context [if ?b then _ else _] => destruct b end;
    done.
Qed.

Lemma space_width_1 c s s' :
  space_width (String c s) = 1%nat -> space_width (String c s') = 1%nat.
Proof.
  destruct s as [|c2 [|c3 s]], s' as [|d2 [|d3 s']]; simpl;
    repeat match goal with |- context [if ?b then _ else _] => destruct b end;
    done.
Qed.

Lemma space_width_2 c1 c2 s s' :
  space_width (String c1 (String c2 s)) = 2%nat ->
  space_width (String c1 (String c2 s')) = 2%nat.
Proof.
  destruct s as [|c3 s], s' as [|d3 s']; simpl;
    repeat match goal with |- context [if ?b then _ else _] => destruct b end;
    done.
Qed.

Lemma space_width_3 c1 c2 c3 s s' :
  space_width (String c1 (String c2 (String c3 s))) = 3%nat ->
  space_width (String c1 (String c2 (String c3 s'))) = 3%nat.
Proof. done. Qed.

(** A string starts with no whitespace character, or with one of one, two
    or three bytes. *)
Lemma space_width_cases s :
  space_width s = 0%nat
  \/ (exists c r, s = String c r /\ space_width s = 1%nat)
  \/ (exists c1 c2 r, s = String c1 (String c2 r) /\ space_width s = 2%nat)
  \/ (exists c1 c2 c3 r,
        s = String c1 (String c2 (String c3 r)) /\ space_width s = 3%nat).
Proof.
  destruct s as [|c1 [|c2 [|c3 s]]]; simpl;
    repeat match goal with |- context [if ?b then _ else _] => destruct b end;
    eauto 10.
Qed.

Lemma all_space_0 s : s <> "" -> space_width s = 0%nat -> all_space s = false.
Proof. destruct s; [done|]. intros _ H. cbn [all_space]. by rewrite H. Qed.

Lemma all_space_1 c s :
  space_width (String c s) = 1%nat -> all_space (String c s) = all_space s.
Proof. intros H. cbn [all_space]. by rewrite H. Qed.

Lemma all_space_2 c1 c2 s :
  space_width (String c1 (String c2 s)) = 2%nat ->
  all_space (String c1 (String c2 s)) = all_space s.
Proof. intros H. cbn [all_space]. by rewrite H. Qed.

Lemma all_space_3 c1 c2 c3 s :
  space_width (String c1 (String c2 (String c3 s))) = 3%nat ->
  all_space (String c1 (String c2 (String c3 s))) = all_space s.
Proof. intros H. cbn [all_space]. by rewrite H. Qed.

Lemma lstrip_0 s : space_width s = 0%nat -> lstrip s = s.
Proof. destruct s; [done|]. intros H. cbn [lstrip]. by rewrite H. Qed.

Lemma lstrip_1 c s :
  space_width (String c s) = 1%nat -> lstrip (String c s) = lstrip s.
Proof. intros H. cbn [lstrip]. by rewrite H. Qed.

Lemma lstrip_2 c1 c2 s :
  space_width (String c1 (String c2 s)) = 2%nat ->
  lstrip (String c1 (String c2 s)) = lstrip s.
Proof. intros H. cbn [lstrip]. by rewrite H. Qed.

Lemma lstrip_3 c1 c2 c3 s :
  space_width (String c1 (String c2 (String c3 s))) = 3%nat ->
  lstrip (String c1 (String c2 (String c3 s))) = lstrip s.
Proof. intros H. cbn [lstrip]. by rewrite H. Qed.

(** Induction along the characters a text starts with, as long as they are
    whitespace. *)
Lemma space_ind (P : string -> Prop) :
  (forall s, space_width s = 0%nat -> P s) ->
  (forall c s, space_width (String c s) = 1%nat -> P s -> P (String c s)) ->
  (forall c1 c2 s, space_width (String c1 (String c2 s)) = 2%nat ->
     P s -> P (String c1 (String c2 s))) ->
  (forall c1 c2 c3 s,
     space_width (String c1 (String c2 (String c3 s))) = 3%nat ->
     P s -> P (String c1 (String c2 (String c3 s)))) ->
  forall s, P s.
Proof.
  intros H0 H1 H2 H3 s.
  remember (String.length s) as n eqn:Hn.
  revert s Hn. induction (lt_wf n) as [n _ IH]. intros s ->.
  destruct (space_width_cases s)
    as [H|[(c & r & -> & H)|[(c1 & c2 & r & -> & H)
       |(c1 & c2 & c3 & r & -> & H)]]].
  - by apply H0.
  - apply H1; [done|]. apply (IH (String.length r)); simpl; [lia|done].
  - apply H2; [done|]. apply (IH (String.length r)); simpl; [lia|done].
  - apply H3; [done|]. apply (IH (String.length r)); simpl; [lia|done].
Qed.

Lemma starts_with_space_0 s :
  space_width s = 0%nat -> starts_with_space s = false.
Proof. unfold starts_with_space. by intros ->. Qed.

Lemma lstrip_split s :
  exists a, s = a +:+ lstrip s /\ all_space a = true
            /\ starts_with_space (lstrip s) = false.
Proof.
  induction s as [s H|c s H (a & Hs & Ha & Hl)|c1 c2 s H (a & Hs & Ha & Hl)
                 |c1 c2 c3 s H (a & Hs & Ha & Hl)] using space_ind.
  - exists "". rewrite (lstrip_0 _ H).
    split_and!; [done|done|by apply starts_with_space_0].
  - exists (String c a). rewrite (lstrip_1 _ _ H). split_and!; [|..|done].
    + rewrite append_cons. by f_equal.
    + by rewrite (all_space_1 _ _ (space_width_1 _ _ a H)).
  - exists (String c1 (String c2 a)). rewrite (lstrip_2 _ _ _ H).
    split_and!; [|..|done].
    + rewrite !append_cons. by do 2 f_equal.
    + by rewrite (all_space_2 _ _ _ (space_width_2 _ _ _ a H)).
  - exists (String c1 (String c2 (String c3 a))). rewrite (lstrip_3 _ _ _ _ H).
    split_and!; [|..|done].
    + rewrite !append_cons. by do 3 f_equal.
    + by rewrite (all_space_3 _ _ _ _ (space_width_3 _ _ _ _ a H)).
Qed.

(** A whitespace character in front of whitespace is whitespace. *)
Lemma all_space_one_space w b :
  one_space w = true -> all_space (w +:+ b) = all_space b.
Proof.
  unfold one_space. intros [Hw Hl]%andb_prop.
  apply negb_true_iff, Nat.eqb_neq in Hw. apply Nat.eqb_eq in Hl.
  pose proof (space_width_app w b Hw) as Happ.
  destruct (space_width_cases w)
    as [H|[(c & r & -> & H)|[(c1 & c2 & r & -> & H)
       |(c1 & c2 & c3 & r & -> & H)]]]; [done|..];
    rewrite H in Hl, Happ; simpl in Hl;
    (destruct r; [|simpl in Hl; lia]);
    rewrite ?append_cons, ?append_nil in *.
  - by apply all_space_1.
  - by apply all_space_2.
  - by apply all_space_3.
Qed.

Lemma rstrip_split s :
  exists b, s = rstrip s +:+ b /\ all_space b = true
            /\ ends_with_space (rstrip s) = false.
Proof.
  induction s as [|c s (b & Hs & Hb & Hr)].
  - by exists "".
  - cbn [rstrip]. destruct (all_space (String c s)) eqn:Hall.
    + exists (String c s). by split_and!.
    + exists b. split_and!; [|done|].
      * rewrite append_cons. by f_equal.
      * cbn [ends_with_space]. rewrite Hr, orb_false_r.
        destruct (one_space (String c (rstrip s))) eqn:Hw; [|done].
        rewrite <- (all_space_one_space _ b Hw), append_cons, <- Hs in Hb.
        congruence.
Qed.

Lemma rstrip_start s :
  starts_with_space s = false -> starts_with_space (rstrip s) = false.
Proof.
  unfold starts_with_space. intros Hs.
  destruct (rstrip_split s) as (b & Heq & _ & _).
  destruct (Nat.eqb_spec (space_width (rstrip s)) 0) as [_|Hw]; [done|].
  rewrite Heq, (space_width_app _ b Hw) in Hs.
  by apply negb_false_iff, Nat.eqb_eq in Hs.
Qed.

Lemma append_assoc (a b c : string) : (a +:+ b) +:+ c = a +:+ b +:+ c.
Proof. induction a as [|x a IH]; [done|]. rewrite !append_cons. by f_equal. Qed.

Lemma strip_trims s : is_trim_of s (strip s).
Proof.
  unfold strip.
  destruct (lstrip_split s) as (a & Hs & Ha & Hl).
  destruct (rstrip_split (lstrip s)) as (b & Hs' & Hb & Hr).
  exists a, b. repeat split; auto using rstrip_start.
  by rewrite <- Hs', <- Hs.
Qed.

Lemma section_text_truthy fallback text :
  (if truthy text then strip (text_of text) else fallback)
  = section_text fallback text.
Proof. by destruct text as [[|c t]|]. Qed.

(** C7.  The prompt opens with the tree, then the SYSTEM_MESSAGE section
    holds the fallback sentence when the system message is absent or empty and
    the trimmed message otherwise, and likewise the USER_INSTRUCTIONS section;
    trimming removes exactly the leading and trailing whitespace characters,
    those of Unicode that [str.strip] removes: what is cut off on either side
    is made of whitespace characters, and what is left neither starts nor
    ends with one. *)
Theorem format_prompt_xml_sections
    (repo_summary : list DirectoryEntry) (directory_tree : string)
    (system_message user_instructions : option string) :
  format_prompt_xml repo_summary directory_tree system_message user_instructions
  = "DIRECTORY TREE:" +:+ NL +:+ directory_tree +:+ NL +:+ NL
    +:+ "<SYSTEM_MESSAGE>" +:+ NL
    +:+ section_text "No system message provided." system_message +:+ NL
    +:+ "</SYSTEM_MESSAGE>" +:+ NL +:+ NL
    +:+ "<USER_INSTRUCTIONS>" +:+ NL
    +:+ section_text "No user instructions provided." user_instructions +:+ NL
    +:+ "</USER_INSTRUCTIONS>" +:+ NL +:+ NL
    +:+ join_nl ("<REPOSITORY_CONTENTS>"
                 :: concat (map format_entry repo_summary)
                 ++ [ "</REPOSITORY_CONTENTS>" ])
  /\ forall s, is_trim_of s (strip s).
Proof.
  split; [|apply strip_trims].
  unfold format_prompt_xml, prompt_parts.
  rewrite !section_text_truthy.
  cbn [app join_nl String.concat].
  rewrite !append_assoc. reflexivity.
Qed.

(** ** Computations only ever extend the log *)

Lemma framed_ret {A} (a : A) : framed (ret a).
Proof. intros l. unfold ret. simpl. by rewrite app_nil_r. Qed.

Lemma framed_raise {A} (e : exn) : framed (raise (A:=A) e).
Proof. intros l. unfold raise. simpl. by rewrite app_nil_r. Qed.

Lemma framed_emit (e : event) : framed (emit e).
Proof. intros l. done. Qed.

Lemma framed_bind {A B} (m : M A) (f : A -> M B) :
  framed m -> (forall a, framed (f a)) -> framed (bind m f).
Proof.
  intros Hm Hf l. unfold bind. rewrite (Hm l).
  destruct (m []) as [[a|e] t]; simpl.
  - rewrite (Hf a (l ++ t)), (Hf a t). simpl. by rewrite app_assoc.
  - done.
Qed.

Lemma framed_try_except {A} (m : M A) (h : exn -> M A) :
  framed m -> (forall e, framed (h e)) -> framed (try_except m h).
Proof.
  intros Hm Hh l. unfold try_except. rewrite (Hm l).
  destruct (m []) as [[a|e] t]; simpl.
  - done.
  - rewrite (Hh e (l ++ t)), (Hh e t). simpl. by rewrite app_assoc.
Qed.

Lemma framed_if {A} (b : bool) (m1 m2 : M A) :
  framed m1 -> framed m2 -> framed (if b then m1 else m2).
Proof. by destruct b. Qed.

Create HintDb framed.
#[local] Hint Resolve framed_ret framed_raise framed_emit framed_bind
  framed_try_except framed_if : framed.

Ltac framed_intros :=
  repeat match goal with |- forall _, _ => intro end.

Ltac framed :=
  repeat (framed_intros; first
    [ simple apply @framed_ret | simple apply @framed_raise
    | simple apply framed_emit | simple apply @framed_bind
    | simple apply @framed_try_except | simple apply @framed_if
    | solve [eauto with framed] ]);
  framed_intros.

(** Induction on the file-system tree, through the entries of a directory. *)
Lemma node_ind_entries (P : node -> Prop) :
  (forall f, P (File f)) ->
  (forall err es, Forall (fun e => P e.2) es -> P (Dir err es)) ->
  forall n, P n.
Proof.
  intros Hf Hd. fix IH 1. intros [f|err es].
  - apply Hf.
  - apply Hd. induction es as [|[d c] es IHes]; constructor.
    + apply IH.
    + apply IHes.
Qed.

Lemma framed_read_loop p lines tail i max_lines acc :
  framed (read_loop p lines tail i max_lines acc).
Proof.
  revert i acc. induction lines as [|line rest IH]; intros i acc; simpl.
  - destruct tail; framed.
  - framed.
Qed.

Lemma framed_summarize_text_file p f max_lines :
  framed (summarize_text_file p f max_lines).
Proof.
  unfold summarize_text_file. framed.
  destruct (f_content f); framed. apply framed_read_loop.
Qed.

Lemma framed_os_path_getsize p f : framed (os_path_getsize p f).
Proof. unfold os_path_getsize. framed. destruct (f_size f); framed. Qed.

Lemma framed_os_path_isdir p b : framed (os_path_isdir p b).
Proof. unfold os_path_isdir. framed. Qed.

Section Framed.
Variable basename_normpath : string -> string.
Variable v : variant.
Variable cfg : config.

Lemma framed_file_step p filename f acc :
  framed (file_step cfg p filename f acc).
Proof.
  unfold file_step. framed.
  - apply framed_os_path_getsize.
  - apply framed_summarize_text_file.
Qed.

Lemma framed_file_loop p files acc : framed (file_loop cfg p files acc).
Proof.
  revert acc. induction files as [|[filename f] rest IH]; intros acc; simpl.
  - framed.
  - framed. apply framed_file_step.
Qed.

Lemma framed_descend walk p es :
  Forall (fun e => forall q, framed (walk e.2 q)) es ->
  framed (descend cfg walk p es).
Proof.
  induction 1 as [|[d c] es Hc _ IH]; simpl.
  - framed.
  - framed.
Qed.

Lemma framed_walk n p : framed (walk cfg n p).
Proof.
  revert p. induction n as [f|err es IH] using node_ind_entries; intros p.
  - simpl. framed.
  - simpl. framed. destruct err; framed.
    + apply framed_file_loop.
    + by apply framed_descend.
Qed.

Lemma framed_tree_loop p prefix len i entries :
  Forall (fun e => forall q pre, framed (e.2.2 q pre)) entries ->
  framed (tree_loop v cfg p prefix len i entries).
Proof.
  intros H. revert i. induction H as [|[entry [isd r]] rest Hr _ IH]; intros i.
  - simpl. framed.
  - simpl. framed.
Qed.

Lemma Forall_insert_sorted {A} (P : string * A -> Prop) x l :
  P x -> Forall P l -> Forall P (insert_sorted x l).
Proof.
  intros Hx. induction 1 as [|y l Hy Hl IH]; simpl.
  - by constructor.
  - destruct (String.leb x.1 y.1); repeat constructor; auto.
Qed.

Lemma Forall_sorted {A} (P : string * A -> Prop) l :
  Forall P l -> Forall P (sorted l).
Proof. induction 1; simpl; auto using Forall_insert_sorted. Qed.

Lemma Forall_filter_keep {A} (P Q : A -> Prop) `{!forall x, Decision (P x)} l :
  Forall Q l -> Forall Q (filter P l).
Proof.
  induction 1 as [|x l Hx Hl IH]; [constructor|].
  rewrite filter_cons. destruct (decide (P x)); auto.
Qed.

Lemma framed_walk_directory n p prefix : framed (walk_directory v cfg n p prefix).
Proof.
  revert p prefix. induction n as [f|err es IH] using node_ind_entries; intros p prefix.
  - simpl. framed.
  - simpl. framed. destruct err; framed.
    apply framed_tree_loop. apply Forall_filter_keep, Forall_sorted.
    apply List.Forall_map. eapply Forall_impl; [exact IH|]. simpl. auto.
Qed.

Lemma framed_create_directory_tree root_dir root :
  framed (create_directory_tree basename_normpath v cfg root_dir root).
Proof. unfold create_directory_tree. framed. apply framed_walk_directory. Qed.

End Framed.

(** ** Empty files *)

Lemma format_entry_block d fs1 fi fs2 :
  format_entry {| directory := d; files := fs1 ++ fi :: fs2 |}
  = (hd "" (format_entry {| directory := d; files := [] |})
       :: concat (map format_file fs1))
    ++ format_file fi
    ++ concat (map format_file fs2) ++ [ "  </directory>" ].
Proof.
  unfold format_entry. cbn [files directory hd app].
  rewrite map_app, concat_app. cbn [map concat].
  by rewrite <- !app_assoc.
Qed.

Lemma block_app_l {A} (blk x y : list A) :
  (exists pre post, y = pre ++ blk ++ post) ->
  exists pre post, x ++ y = pre ++ blk ++ post.
Proof.
  intros (pre & post & ->). exists (x ++ pre), post. by rewrite <- !app_assoc.
Qed.

Lemma block_app_r {A} (blk y z : list A) :
  (exists pre post, y = pre ++ blk ++ post) ->
  exists pre post, y ++ z = pre ++ blk ++ post.
Proof.
  intros (pre & post & ->). exists pre, (post ++ z). by rewrite <- !app_assoc.
Qed.

Lemma prompt_parts_block before d fs1 fi fs2 after tree sm ui :
  exists pre post,
    prompt_parts
      (before ++ {| directory := d; files := fs1 ++ fi :: fs2 |} :: after)
      tree sm ui
    = pre ++ format_file fi ++ post.
Proof.
  unfold prompt_parts. rewrite map_app, concat_app. cbn [map concat].
  rewrite format_entry_block.
  do 4 apply block_app_l. apply block_app_r, block_app_l, block_app_r. eauto.
Qed.

(** C10.  An empty readable file is summarised by the empty string, and the
    formatter renders the empty summary as one content line of nine spaces:
    splitting the empty string at line feeds gives one empty line, which gets
    the prefix. *)
Theorem empty_file_content_block
    (filepath : path) (f : file) (max_lines : Z) (l : log) (filename : string) :
  f_content f = Stream "" None ->
  summarize_text_file filepath f max_lines l = (Ok "", l ++ [Open filepath])
  /\ format_file {| name := filename; summary := "" |}
     = [ "    <file name=" +:+ QUOTE +:+ filename +:+ QUOTE +:+ ">";
         "      <content>";
         nine_spaces;
         "      </content>";
         "    </file>" ]
  /\ nine_spaces = "         "
  /\ String.length nine_spaces = 9%nat
  /\ forall before d fs1 fs2 after tree sm ui,
       exists pre post,
         prompt_parts
           (before
            ++ {| directory := d;
                  files := fs1 ++ {| name := filename; summary := "" |} :: fs2 |}
            :: after) tree sm ui
         = pre ++ format_file {| name := filename; summary := "" |} ++ post.
Proof.
  intros Hf. split_and!; try reflexivity.
  - unfold summarize_text_file, bind, try_except, emit. rewrite Hf. reflexivity.
  - intros. apply prompt_parts_block.
Qed.

(** ** The walker, entry by entry *)

Lemma bind_ok {A B} (m : M A) (f : A -> M B) l b l' :
  bind m f l = (Ok b, l') ->
  exists a l1, m l = (Ok a, l1) /\ f a l1 = (Ok b, l').
Proof.
  unfold bind. destruct (m l) as [[a|e] l1]; [eauto|done].
Qed.

Lemma framed_result {A} (m : M A) l r l' :
  framed m -> m l = (r, l') -> (m []).1 = r.
Proof. intros Hm Hl. rewrite (Hm l) in Hl. congruence. Qed.

Lemma summarize_text_file_returns p f max_lines l :
  exists s l', summarize_text_file p f max_lines l = (Ok s, l').
Proof.
  unfold summarize_text_file. unfold bind at 1.
  destruct (try_except _ _ l) as [[ls|e] l1] eqn:H; [unfold ret; eauto|].
  exfalso. unfold try_except in H.
  destruct (bind _ _ l) as [[?|?] ?]; unfold ret in H; discriminate.
Qed.

Section Walker.
Variable cfg : config.

Lemma file_step_ok p filename f acc l out l' :
  file_step cfg p filename f acc l = (Ok out, l') ->
  (~ eligible cfg filename /\ out = acc)
  \/ (eligible cfg filename
      /\ exists s, out = acc ++ [ {| name := filename; summary := s |} ]
                   /\ summary_of cfg p filename f s).
Proof.
  unfold file_step, eligible.
  case_bool_decide as Hext.
  - unfold ret. intros [= <- <-]. left. tauto.
  - intros (size & l1 & Hsize & Hrest)%bind_ok. right. split; [done|].
    unfold os_path_getsize, bind, emit, ret, raise in Hsize.
    destruct (f_size f) as [n|e] eqn:Hf; [|done].
    injection Hsize as <- <-.
    destruct (Z.of_N n >? max_file_size_bytes cfg) eqn:Hbig.
    + injection Hrest as <- <-. eexists. split; [done|].
      exists n. by rewrite Hbig.
    + apply bind_ok in Hrest as (s & l2 & Hs & [= <- <-]).
      eexists. split; [done|]. exists n. rewrite Hbig. split; [done|].
      eapply framed_result; [apply framed_summarize_text_file|exact Hs].
Qed.

Lemma file_loop_ok p files acc l out l' :
  file_loop cfg p files acc l = (Ok out, l') ->
  exists new, out = acc ++ new
    /\ Forall2 (file_rel cfg p) new (filter (fun e => eligible cfg e.1) files).
Proof.
  revert acc l. induction files as [|[filename f] rest IH]; intros acc l.
  - simpl. unfold ret. intros [= <- <-]. exists []. by rewrite app_nil_r.
  - simpl. intros (acc' & l1 & Hstep & Hrest)%bind_ok.
    apply IH in Hrest as (new & -> & Hnew).
    apply file_step_ok in Hstep as [[Hne ->] | [He (s & -> & Hs)]].
    + exists new. split; [done|]. rewrite filter_cons_False; done.
    + exists ({| name := filename; summary := s |} :: new).
      rewrite <- app_assoc. split; [done|].
      rewrite filter_cons_True by done. constructor; [|done]. by split.
Qed.

Lemma descend_ok walk p es l s l' :
  Forall (fun e => forall q l s l',
            walk e.2 q l = (Ok s, l') ->
            Forall2 (entry_rel cfg) s
              (filter (fun d => has_eligible cfg d.2) (visited cfg e.2 q))) es ->
  descend cfg walk p es l = (Ok s, l') ->
  Forall2 (entry_rel cfg) s
    (filter (fun d => has_eligible cfg d.2)
       (visited_below cfg (visited cfg) p es)).
Proof.
  intros H. revert l s l'. induction H as [|[d c] es Hc _ IH]; intros l s l'.
  - simpl. unfold ret. intros [= <- <-]. constructor.
  - simpl. destruct (is_dir c && bool_decide (d ∉ ignored_dirs cfg)).
    + intros (r & l1 & Hr & (rs & l2 & Hrs & [= <- <-])%bind_ok)%bind_ok.
      rewrite filter_app. apply Forall2_app; eauto.
    + apply IH.
Qed.

Lemma Exists_filter {A} (P : A -> Prop) `{!forall x, Decision (P x)} l :
  Exists P l <-> filter P l <> [].
Proof.
  induction l as [|x l IH]; [by rewrite Exists_nil|].
  rewrite Exists_cons, filter_cons. destruct (decide (P x)); [|tauto].
  split; [done|auto].
Qed.

Lemma has_eligible_filter es :
  has_eligible cfg es
  <-> filter (fun e => eligible cfg e.1) (files_of es) <> [].
Proof.
  unfold has_eligible. rewrite bool_decide_spec. apply Exists_filter.
Qed.

Lemma has_eligible_nil : ~ has_eligible cfg [].
Proof. rewrite has_eligible_filter. simpl. tauto. Qed.

Lemma walk_ok n p l s l' :
  walk cfg n p l = (Ok s, l') ->
  Forall2 (entry_rel cfg) s
    (filter (fun d => has_eligible cfg d.2) (visited cfg n p)).
Proof.
  revert p l s l'. induction n as [f|err es IH] using node_ind_entries;
    intros p l s l'.
  - simpl. unfold bind, emit, ret. intros [= <- <-].
    rewrite filter_cons_False; [constructor|]. apply has_eligible_nil.
  - simpl. intros (? & l0 & _ & Hrun)%bind_ok. destruct err as [e|].
    + injection Hrun as <- <-.
      rewrite filter_cons_False; [constructor|]. apply has_eligible_nil.
    + apply bind_ok in Hrun as (fsums & l1 & Hfiles & Hrun).
      apply bind_ok in Hrun as (below & l2 & Hbelow & [= <- <-]).
      apply file_loop_ok in Hfiles as (new & -> & Hnew). simpl in Hnew.
      apply (descend_ok _ _ _ _ _ _ IH) in Hbelow.
      pose proof (has_eligible_filter es) as Hhas.
      cbn [app]. destruct new as [|fi new].
      * apply Forall2_nil_inv_l in Hnew.
        rewrite filter_cons_False; [done|]. cbn [snd]. rewrite Hhas, Hnew. tauto.
      * rewrite filter_cons_True.
        -- constructor; [|done]. split; [done|]. done.
        -- cbn [snd]. rewrite Hhas. intros E. rewrite E in Hnew.
           by apply Forall2_nil_inv_r in Hnew.
Qed.

End Walker.

(** ** The events of a computation *)

Lemma emits_ret {A} P (a : A) : emits P (ret a).
Proof. intros l r l' [= <- <-]. exists []. by rewrite app_nil_r. Qed.

Lemma emits_raise {A} P (e : exn) : emits P (raise (A:=A) e).
Proof. intros l r l' [= <- <-]. exists []. by rewrite app_nil_r. Qed.

Lemma emits_emit (P : event -> Prop) e : P e -> emits P (emit e).
Proof. intros He l r l' [= <- <-]. exists [e]. auto. Qed.

Lemma emits_bind {A B} P (m : M A) (f : A -> M B) :
  emits P m ->
  (forall a, (exists l l', m l = (Ok a, l')) -> emits P (f a)) ->
  emits P (bind m f).
Proof.
  intros Hm Hf l r l'. unfold bind.
  destruct (m l) as [[a|e] l1] eqn:Hml; intros Hrun.
  - destruct (Hm _ _ _ Hml) as (t1 & -> & Ht1).
    destruct (Hf a (ex_intro _ l (ex_intro _ _ Hml)) _ _ _ Hrun)
      as (t2 & -> & Ht2).
    exists (t1 ++ t2). rewrite app_assoc. split; [done|]. by apply Forall_app.
  - injection Hrun as <- <-. eauto.
Qed.

Lemma emits_try_except {A} P (m : M A) (h : exn -> M A) :
  emits P m -> (forall e, emits P (h e)) -> emits P (try_except m h).
Proof.
  intros Hm Hh l r l'. unfold try_except.
  destruct (m l) as [[a|e] l1] eqn:Hml; intros Hrun.
  - injection Hrun as <- <-. eauto.
  - destruct (Hm _ _ _ Hml) as (t1 & -> & Ht1).
    destruct (Hh e _ _ _ Hrun) as (t2 & -> & Ht2).
    exists (t1 ++ t2). rewrite app_assoc. split; [done|]. by apply Forall_app.
Qed.

Lemma emits_mono {A} (P Q : event -> Prop) (m : M A) :
  (forall e, P e -> Q e) -> emits P m -> emits Q m.
Proof.
  intros HPQ Hm l r l' Hrun. destruct (Hm _ _ _ Hrun) as (t & -> & Ht).
  exists t. split; [done|]. eapply Forall_impl; eauto.
Qed.

Lemma emits_read_loop p lines tail i max_lines acc :
  emits (fun e => e = Readline p) (read_loop p lines tail i max_lines acc).
Proof.
  revert i acc. induction lines as [|line rest IH]; intros i acc; simpl.
  - destruct tail; [apply emits_raise|apply emits_ret].
  - apply emits_bind; [by apply emits_emit|]. intros _ _.
    destruct (i >=? max_lines); [apply emits_ret|apply IH].
Qed.

Lemma emits_summarize_text_file p f max_lines :
  emits (fun e => e = Open p \/ e = Readline p)
    (summarize_text_file p f max_lines).
Proof.
  unfold summarize_text_file.
  apply emits_bind; [|intros; apply emits_ret].
  apply emits_try_except; [|intros; apply emits_ret].
  apply emits_bind; [apply emits_emit; auto|]. intros _ _.
  destruct (f_content f); [apply emits_raise|].
  eapply emits_mono; [|apply emits_read_loop]. simpl. auto.
Qed.

Section WalkerEvents.
Variable cfg : config.

Lemma emits_file_step p filename f acc :
  emits (file_event cfg p filename f) (file_step cfg p filename f acc).
Proof.
  unfold file_step. case_bool_decide as Hext; [apply emits_ret|].
  apply emits_bind.
  - unfold os_path_getsize. apply emits_bind.
    + apply emits_emit. split; [done|]. by left.
    + intros _ _. destruct (f_size f); [apply emits_ret|apply emits_raise].
  - intros size (l & l' & Hsize).
    unfold os_path_getsize, bind, emit, ret, raise in Hsize.
    destruct (f_size f) as [n|e] eqn:Hf; [|done]. injection Hsize as <- _.
    destruct (Z.gtb_spec (Z.of_N n) (max_file_size_bytes cfg));
      [apply emits_ret|].
    apply emits_bind; [|intros; apply emits_ret].
    eapply emits_mono; [|apply emits_summarize_text_file].
    intros e He. split; [done|]. right. exists n. auto.
Qed.

Lemma emits_file_loop p files acc :
  emits (fun e => exists filename f,
           In (filename, f) files /\ file_event cfg p filename f e)
    (file_loop cfg p files acc).
Proof.
  revert acc. induction files as [|[filename f] rest IH]; intros acc; simpl.
  - apply emits_ret.
  - apply emits_bind.
    + eapply emits_mono; [|apply emits_file_step]. simpl. eauto 6.
    + intros acc' _. eapply emits_mono; [|apply IH].
      simpl. intros e (fn & f' & Hin & He). eauto 6.
Qed.

Lemma walk_event_below p es d c e :
  In (d, c) es -> is_dir c && bool_decide (d ∉ ignored_dirs cfg) = true ->
  walk_event cfg c (p ++ [d]) e -> walk_event cfg (Dir None es) p e.
Proof.
  intros Hin Hkeep (q & es' & Hq & He). exists q, es'. split; [|done].
  simpl. right. clear He. induction es as [|[d' c'] es IH]; [done|].
  simpl. destruct Hin as [[= -> ->]|Hin].
  - rewrite Hkeep. apply in_app_iff. by left.
  - destruct (is_dir c' && _); [apply in_app_iff; right|]; auto.
Qed.

Lemma emits_walk n p : emits (walk_event cfg n p) (walk cfg n p).
Proof.
  revert p. induction n as [f|err es IH] using node_ind_entries; intros p.
  - simpl. apply emits_bind; [|intros; apply emits_ret].
    apply emits_emit. exists p, []. simpl. auto.
  - simpl. destruct err as [e|].
    + apply emits_bind; [|intros; apply emits_ret].
      apply emits_emit. exists p, []. simpl. auto.
    + apply emits_bind.
      { apply emits_emit. exists p, es. simpl. auto. }
      intros _ _. apply emits_bind.
      { eapply emits_mono; [|apply emits_file_loop].
        intros e He. exists p, es. simpl. auto. }
      intros fsums _. apply emits_bind; [|intros; apply emits_ret].
      assert (forall d c, In (d, c) es ->
                is_dir c && bool_decide (d ∉ ignored_dirs cfg) = true ->
                forall e, walk_event cfg c (p ++ [d]) e ->
                          walk_event cfg (Dir None es) p e) as Hup
        by eauto using walk_event_below.
      revert Hup. generalize (walk_event cfg (Dir None es) p) as Q.
      clear fsums. induction IH as [|[d c] es Hc _ IHes]; intros Q Hup; simpl.
      * apply emits_ret.
      * destruct (is_dir c && bool_decide (d ∉ ignored_dirs cfg)) eqn:Hkeep.
        -- apply emits_bind.
           ++ eapply emits_mono; [|apply Hc]. apply Hup; [by left|done].
           ++ intros r _. apply emits_bind; [|intros; apply emits_ret].
              apply IHes. intros; eapply Hup; eauto. by right.
        -- apply IHes. intros; eapply Hup; eauto. by right.
Qed.

End WalkerEvents.

(** ** Lists *)

Lemma Forall2_In_r {A B} (R : A -> B -> Prop) l k y :
  Forall2 R l k -> In y k -> exists x, In x l /\ R x y.
Proof.
  induction 1 as [|x y' l k HR _ IH]; simpl; [done|].
  intros [->|Hin]; [eauto|]. destruct (IH Hin) as (x' & ? & ?). eauto.
Qed.

Lemma Forall2_map_eq {A B C} (R : A -> B -> Prop) (f : A -> C) (g : B -> C) l k :
  (forall x y, R x y -> f x = g y) -> Forall2 R l k -> map f l = map g k.
Proof. intros H. induction 1; simpl; f_equal; auto. Qed.

Lemma In_filter {A} (P : A -> Prop) `{!forall x, Decision (P x)} l x :
  In x (filter P l) <-> P x /\ In x l.
Proof. rewrite <- !list_elem_of_In. apply list_elem_of_filter. Qed.

Lemma NoDup_map_inj {A B} (f : A -> B) l x y :
  List.NoDup (map f l) -> In x l -> In y l -> f x = f y -> x = y.
Proof.
  induction l as [|a l IH]; simpl; [done|].
  intros Hnd. apply List.NoDup_cons_iff in Hnd as [Hnotin Hnd].
  intros [->|Hx] [->|Hy] Hf; auto.
  - destruct Hnotin. rewrite Hf. by apply in_map.
  - destruct Hnotin. rewrite <- Hf. by apply in_map.
Qed.

Lemma In_files_of es filename f :
  In (filename, f) (files_of es) <-> In (filename, File f) es.
Proof.
  unfold files_of. induction es as [|[d c] es IH]; simpl; [done|].
  destruct c as [f'|err es']; simpl; rewrite IH; [|intuition congruence].
  split; intros [H|H]; auto; left; congruence.
Qed.

Lemma scans_app t1 t2 : scans (t1 ++ t2) = scans t1 ++ scans t2.
Proof. apply omap_app. Qed.

Lemma scans_cons e t :
  scans (e :: t)
  = match e with Scandir p => p :: scans t | _ => scans t end.
Proof. by destruct e. Qed.

Lemma scans_none t :
  Forall (fun e => forall q, e <> Scandir q) t -> scans t = [].
Proof.
  induction 1 as [|e t He _ IH]; [done|].
  rewrite scans_cons. destruct e; try done. by destruct (He p).
Qed.

Section WalkerScans.
Variable cfg : config.

Lemma scans_file_loop p files acc l r l' :
  file_loop cfg p files acc l = (r, l') ->
  exists t, l' = l ++ t /\ scans t = [].
Proof.
  intros (t & -> & Ht)%emits_file_loop. exists t. split; [done|].
  apply scans_none. eapply Forall_impl; [exact Ht|]. simpl.
  intros e (fn & f & _ & _ & [->|(size & _ & _ & [->| ->])]) q; done.
Qed.

Lemma scans_descend walk p es l s l' :
  Forall (fun e => forall q l s l',
            walk e.2 q l = (Ok s, l') ->
            exists t, l' = l ++ t /\ scans t = map fst (visited cfg e.2 q)) es ->
  descend cfg walk p es l = (Ok s, l') ->
  exists t, l' = l ++ t
    /\ scans t = map fst (visited_below cfg (visited cfg) p es).
Proof.
  intros H. revert l s l'. induction H as [|[d c] es Hc _ IH]; intros l s l'.
  - simpl. intros [= <- <-]. exists []. by rewrite app_nil_r.
  - simpl. destruct (is_dir c && bool_decide (d ∉ ignored_dirs cfg)).
    + intros (r & l1 & Hr & (rs & l2 & Hrs & [= <- <-])%bind_ok)%bind_ok.
      apply Hc in Hr as (t1 & -> & Ht1). apply IH in Hrs as (t2 & -> & Ht2).
      exists (t1 ++ t2). rewrite app_assoc, scans_app, map_app, Ht1, Ht2. done.
    + apply IH.
Qed.

Lemma scans_walk n p l s l' :
  walk cfg n p l = (Ok s, l') ->
  exists t, l' = l ++ t /\ scans t = map fst (visited cfg n p).
Proof.
  revert p l s l'. induction n as [f|err es IH] using node_ind_entries;
    intros p l s l'.
  - simpl. unfold bind, emit, ret. intros [= <- <-]. by exists [Scandir p].
  - simpl. intros (? & l0 & Hemit & Hrun)%bind_ok.
    unfold emit in Hemit. injection Hemit as _ <-. destruct err as [e|].
    + injection Hrun as <- <-. by exists [Scandir p].
    + apply bind_ok in Hrun as (fsums & l1 & Hfiles & Hrun).
      apply bind_ok in Hrun as (below & l2 & Hbelow & [= <- <-]).
      apply scans_file_loop in Hfiles as (t1 & -> & Ht1).
      apply (scans_descend _ _ _ _ _ _ IH) in Hbelow as (t2 & -> & Ht2).
      exists (Scandir p :: t1 ++ t2). split.
      * by rewrite <- !app_assoc.
      * change (Scandir p :: t1 ++ t2) with ([Scandir p] ++ t1 ++ t2).
        rewrite !scans_app, Ht1, Ht2. done.
Qed.

End WalkerScans.

(** ** Directories and files in the summary *)

(** C5.  When the walk succeeds, the entries of the repository summary are,
    in order, the directories the traversal goes through that hold at least
    one file whose extension is not ignored, whatever the size of the file;
    the traversal lists every directory reachable through names that are not
    ignored, also those left out of the summary. *)
Theorem directories_with_eligible_files
    (cfg : config) (root : node) (l : log)
    (repo_summary : list DirectoryEntry) (l' : log) :
  create_repo_summary cfg root l = (Ok repo_summary, l') ->
  map directory repo_summary
  = map (fun d => rel_dir d.1)
      (filter (fun d => has_eligible cfg d.2) (visited cfg root []))
  /\ (exists t, l' = l ++ t /\ scans t = map fst (visited cfg root []))
  /\ (forall es filename f,
        In (filename, File f) es -> eligible cfg filename ->
        has_eligible cfg es)
  /\ (List.NoDup (map (fun d => rel_dir d.1) (visited cfg root [])) ->
      forall q es, In (q, es) (visited cfg root []) ->
        (In (rel_dir q) (map directory repo_summary) <-> has_eligible cfg es)).
Proof.
  intros Hrun. unfold create_repo_summary in Hrun.
  pose proof (walk_ok _ _ _ _ _ _ Hrun) as Hrel.
  assert (map directory repo_summary
          = map (fun d => rel_dir d.1)
              (filter (fun d => has_eligible cfg d.2) (visited cfg root [])))
    as Hdirs.
  { eapply Forall2_map_eq; [|exact Hrel]. by intros entry d [? _]. }
  split_and!.
  - exact Hdirs.
  - by eapply scans_walk.
  - intros es filename f Hin Hel. apply has_eligible_filter.
    apply In_files_of in Hin.
    assert (In (filename, f) (filter (fun e => eligible cfg e.1) (files_of es)))
      as Hf by (by apply In_filter).
    intros E. by rewrite E in Hf.
  - intros Hnd q es Hq. rewrite Hdirs. split.
    + intros Hin. apply in_map_iff in Hin as ([q' es'] & Heq & Hin').
      apply In_filter in Hin' as [Hhas Hin'].
      assert ((q', es') = (q, es)) as [= <- <-]; [|done].
      by eapply (NoDup_map_inj (fun d => rel_dir d.1)).
    + intros Hhas. apply (in_map (fun d => rel_dir d.1) _ (q, es)).
      by apply In_filter.
Qed.

(** C2.  A kept file whose size exceeds the limit gets the placeholder
    summary with its size in decimal; handling it asks its size and nothing
    else, and the entry of its directory in the repository summary carries
    that summary. *)
Theorem oversized_file_placeholder
    (cfg : config) (current_path : path) (filename : string) (f : file)
    (size : N) (file_summaries : list FileSummary) (l : log) :
  eligible cfg filename ->
  f_size f = Ok size ->
  Z.of_N size > max_file_size_bytes cfg ->
  file_step cfg current_path filename f file_summaries l
  = (Ok (file_summaries
         ++ [ {| name := filename;
                 summary := "File size (" +:+ str_of_N size
                            +:+ " bytes) exceeds limit; skipping content." |} ]),
     l ++ [Getsize (current_path ++ [filename])])
  /\ (forall root l0 repo_summary l1 es,
        create_repo_summary cfg root l0 = (Ok repo_summary, l1) ->
        In (current_path, es) (visited cfg root []) ->
        In (filename, File f) es ->
        exists entry,
          In entry repo_summary
          /\ directory entry = rel_dir current_path
          /\ In {| name := filename;
                   summary := "File size (" +:+ str_of_N size
                              +:+ " bytes) exceeds limit; skipping content." |}
                (files entry))
  /\ emits (fun e => e <> Open (current_path ++ [filename])
                     /\ e <> Readline (current_path ++ [filename]))
       (file_step cfg current_path filename f file_summaries).
Proof.
  intros Hel Hsize Hbig.
  assert ((Z.of_N size >? max_file_size_bytes cfg) = true) as Hgt by lia.
  split_and!.
  - unfold file_step. rewrite bool_decide_eq_false_2 by exact Hel.
    unfold bind, os_path_getsize, bind, emit, ret. rewrite Hsize, Hgt. done.
  - intros root l0 repo_summary l1 es Hrun Hvis Hin.
    apply walk_ok in Hrun.
    assert (In (filename, f) (filter (fun e => eligible cfg e.1) (files_of es)))
      as Hf by (apply In_filter; split; [done|by apply In_files_of]).
    assert (In (current_path, es)
              (filter (fun d => has_eligible cfg d.2) (visited cfg root [])))
      as Hd.
    { apply In_filter. split; [|done]. cbn [snd].
      apply has_eligible_filter. intros E. by rewrite E in Hf. }
    destruct (Forall2_In_r _ _ _ _ Hrun Hd) as (entry & Hentry & Hdir & Hfiles).
    destruct (Forall2_In_r _ _ _ _ Hfiles Hf)
      as ([nm s] & Hfi & Hname & size' & Hsize' & Hsum).
    simpl in *. subst nm. rewrite Hsize in Hsize'. injection Hsize' as <-.
    rewrite Hgt in Hsum. subst s. eauto.
  - eapply emits_mono; [|apply emits_file_step].
    intros e [_ [->|(size' & Hsize' & Hle & _)]]; [done|].
    rewrite Hsize in Hsize'. injection Hsize' as <-. lia.
Qed.

(** ** Sorting by name *)

Lemma leb_iff (a b : string) :
  String.leb a b = true <-> OrderedTypeEx.String_as_OT.lt a b \/ a = b.
Proof.
  unfold String.leb.
  destruct (String.compare a b) eqn:Hc.
  - apply OrderedTypeEx.String_as_OT.cmp_eq in Hc. tauto.
  - apply OrderedTypeEx.String_as_OT.cmp_lt in Hc. tauto.
  - split; [done|]. intros [Hlt| ->].
    + apply OrderedTypeEx.String_as_OT.cmp_lt in Hlt.
      unfold OrderedTypeEx.String_as_OT.cmp in Hlt. congruence.
    + assert (String.compare b b = Eq) as E
        by (by apply OrderedTypeEx.String_as_OT.cmp_eq).
      congruence.
Qed.

Lemma leb_trans (a b c : string) :
  String.leb a b = true -> String.leb b c = true -> String.leb a c = true.
Proof.
  rewrite !leb_iff. intros [Hab| ->] [Hbc| ->]; auto.
  left. eapply OrderedTypeEx.String_as_OT.lt_trans; eauto.
Qed.

Lemma leb_total_false (a b : string) :
  String.leb a b = false -> String.leb b a = true.
Proof. destruct (String.leb_total a b) as [H|H]; congruence. Qed.

Section Sorted.
Context {A : Type}.
Implicit Types (x y : string * A) (l : list (string * A)).

Lemma insert_sorted_min x l :
  Forall (name_le x) l -> insert_sorted x l = x :: l.
Proof. destruct 1 as [|y l Hy _]; simpl; [done|]. by rewrite Hy. Qed.

Lemma insert_sorted_sorted x l :
  StronglySorted name_le l -> StronglySorted name_le (insert_sorted x l).
Proof.
  induction 1 as [|y l Hl IH Hy]; simpl.
  - repeat constructor.
  - destruct (String.leb x.1 y.1) eqn:Hxy.
    + constructor; [by constructor|]. constructor; [done|].
      eapply Forall_impl; [exact Hy|]. intros z Hz. unfold name_le in *.
      eauto using leb_trans.
    + constructor; [done|]. apply Forall_insert_sorted; [|done].
      by apply leb_total_false.
Qed.

Lemma sorted_sorted l : StronglySorted name_le (sorted l).
Proof.
  induction l; simpl; [constructor|]. by apply insert_sorted_sorted.
Qed.

Lemma filter_insert_sorted (P : string * A -> Prop)
    `{!forall x, Decision (P x)} x l :
  StronglySorted name_le l ->
  filter P (insert_sorted x l)
  = if decide (P x) then insert_sorted x (filter P l) else filter P l.
Proof.
  induction 1 as [|y l Hl IH Hy]; simpl.
  - rewrite filter_cons, filter_nil. by destruct (decide (P x)).
  - destruct (String.leb x.1 y.1) eqn:Hxy.
    + rewrite filter_cons. destruct (decide (P x)); [|done].
      rewrite insert_sorted_min; [done|].
      apply Forall_filter_keep. constructor; [done|].
      eapply Forall_impl; [exact Hy|]. intros z Hz. unfold name_le in *.
      eauto using leb_trans.
    + rewrite !(filter_cons _ y), IH.
      destruct (decide (P y)), (decide (P x)); simpl; try done.
      by rewrite Hxy.
Qed.

(** Filtering commutes with the stable sort. *)
Lemma filter_sorted (P : string * A -> Prop) `{!forall x, Decision (P x)} l :
  filter P (sorted l) = sorted (filter P l).
Proof.
  induction l as [|x l IH]; simpl; [done|].
  rewrite filter_insert_sorted by apply sorted_sorted.
  rewrite filter_cons, IH. by destruct (decide (P x)).
Qed.

End Sorted.

Lemma insert_sorted_same a b l k :
  same_entry a b -> Forall2 same_entry l k ->
  Forall2 same_entry (insert_sorted a l) (insert_sorted b k).
Proof.
  intros Hab. induction 1 as [|x y l k Hxy Hlk IH]; simpl.
  - constructor; [done|constructor].
  - assert (String.leb a.1 x.1 = String.leb b.1 y.1) as ->
      by (destruct Hab as (-> & _), Hxy as (-> & _); done).
    destruct (String.leb b.1 y.1).
    + constructor; [done|]. by constructor.
    + by constructor.
Qed.

Lemma sorted_same l k :
  Forall2 same_entry l k -> Forall2 same_entry (sorted l) (sorted k).
Proof. induction 1; simpl; [constructor|]. by apply insert_sorted_same. Qed.

Lemma bind_ext {A B} (m : M A) (f g : A -> M B) l :
  (forall a l', f a l' = g a l') -> bind m f l = bind m g l.
Proof. intros H. unfold bind. destruct (m l) as [[a|e] l']; auto. Qed.

Lemma bind_ext_l {A B} (m m' : M A) (f : A -> M B) l :
  m l = m' l -> bind m f l = bind m' f l.
Proof. intros H. unfold bind. by rewrite H. Qed.

Section Renderer.
Variable v : variant.
Variable cfg : config.

Lemma tree_loop_same p prefix len i entries entries' l :
  Forall2 same_entry entries entries' ->
  tree_loop v cfg p prefix len i entries l
  = tree_loop v cfg p prefix len i entries' l.
Proof.
  intros H. revert i l.
  induction H as [|[n [d r]] [n' [d' r']] es es' (Hn & Hd & Hr) _ IH];
    intros i l; [done|].
  simpl in Hn, Hd, Hr. subst n' d'. cbn [tree_loop].
  apply bind_ext. intros isd l1.
  etrans; [apply bind_ext; intros; apply bind_ext_l, IH|].
  apply bind_ext_l. destruct isd; [|done]. apply bind_ext_l, Hr.
Qed.

End Renderer.

(** ** Ignored directories *)

Lemma Forall_filter_self {A} (P : A -> Prop) `{!forall x, Decision (P x)} l :
  Forall P (filter P l).
Proof.
  induction l as [|x l IH]; [constructor|].
  rewrite filter_cons. destruct (decide (P x)); auto.
Qed.

Section Pruning.
Variable v : variant.
Variable cfg : config.

Lemma is_dir_prune n : is_dir (prune cfg n) = is_dir n.
Proof. by destruct n. Qed.

Lemma files_of_cons d c es :
  files_of ((d, c) :: es)
  = match c with File f => (d, f) :: files_of es | Dir _ _ => files_of es end.
Proof. by destruct c. Qed.

Lemma files_of_prune es :
  files_of (prune_entries cfg (prune cfg) es) = files_of es.
Proof.
  induction es as [|[d c] es IH]; [done|]. cbn [prune_entries].
  destruct c as [f|err es']; cbn [is_dir andb prune].
  - by rewrite !files_of_cons, IH.
  - destruct (bool_decide _); by rewrite !files_of_cons.
Qed.

Lemma descend_prune walk p es l :
  Forall (fun e => forall q l, walk (prune cfg e.2) q l = walk e.2 q l) es ->
  descend cfg walk p (prune_entries cfg (prune cfg) es) l
  = descend cfg walk p es l.
Proof.
  intros H. revert l. induction H as [|[d c] es Hc _ IH]; intros l; [done|].
  simpl. destruct (is_dir c) eqn:Hd; simpl.
  - case_bool_decide as Hin.
    + rewrite bool_decide_eq_false_2 by tauto. apply IH.
    + simpl. rewrite is_dir_prune, Hd, bool_decide_eq_true_2 by done. simpl.
      etrans; [apply bind_ext_l, Hc|]. apply bind_ext. intros r l1.
      apply bind_ext_l, IH.
  - rewrite is_dir_prune, Hd. simpl. apply IH.
Qed.

Lemma walk_prune n p l : walk cfg (prune cfg n) p l = walk cfg n p l.
Proof.
  revert p l. induction n as [f|err es IH] using node_ind_entries; intros p l.
  - done.
  - simpl. apply bind_ext. intros _ l1. destruct err; [done|].
    rewrite files_of_prune. apply bind_ext. intros fsums l2.
    apply bind_ext_l. by apply descend_prune.
Qed.

Lemma entries_prune es :
  Forall (fun e => forall q pre l,
            walk_directory v cfg (prune cfg e.2) q pre l
            = walk_directory v cfg e.2 q pre l) es ->
  Forall2 same_entry
    (filter (fun e => e.1 ∉ ignored_dirs cfg)
       (map (fun e => (e.1, (is_dir e.2, walk_directory v cfg e.2)))
          (prune_entries cfg (prune cfg) es)))
    (filter (fun e => e.1 ∉ ignored_dirs cfg)
       (map (fun e => (e.1, (is_dir e.2, walk_directory v cfg e.2))) es)).
Proof.
  induction 1 as [|[d c] es Hc _ IH]; [constructor|]. simpl.
  destruct (is_dir c && bool_decide (d ∈ ignored_dirs cfg)) eqn:Hcut.
  - apply andb_prop in Hcut as [_ Hin%bool_decide_eq_true].
    rewrite (filter_cons_False _ (d, _)); [done|]. simpl. tauto.
  - simpl. rewrite !(filter_cons _ (d, _)). simpl.
    destruct (decide (d ∉ ignored_dirs cfg)); [|done].
    constructor; [|done]. split_and!; simpl; auto using is_dir_prune.
Qed.

Lemma walk_directory_prune n p prefix l :
  walk_directory v cfg (prune cfg n) p prefix l
  = walk_directory v cfg n p prefix l.
Proof.
  revert p prefix l. induction n as [f|err es IH] using node_ind_entries;
    intros p prefix l.
  - done.
  - simpl. apply bind_ext. intros _ l1. destruct err; [done|].
    rewrite !filter_sorted.
    pose proof (sorted_same _ _ (entries_prune es IH)) as Hsame.
    rewrite (Forall2_length _ _ _ Hsame). by apply tree_loop_same.
Qed.

(** The directories the traversal goes through lie on kept paths. *)
Lemma visited_below_kept p es q es' :
  Forall (fun e => forall p q es',
            In (q, es') (visited cfg e.2 p) ->
            exists ds, q = p ++ ds /\ kept_path cfg ds) es ->
  In (q, es') (visited_below cfg (visited cfg) p es) ->
  exists ds, q = p ++ ds /\ kept_path cfg ds.
Proof.
  induction 1 as [|[d c] es Hc _ IH]; simpl; [done|].
  destruct (is_dir c) eqn:Hd; simpl; [|done].
  case_bool_decide as Hkeep; simpl; [|done].
  rewrite in_app_iff. intros [Hin|Hin]; [|auto].
  apply Hc in Hin as (ds & -> & Hds). exists (d :: ds).
  rewrite <- app_assoc. split; [done|]. by constructor.
Qed.

Lemma kept_here p : exists ds, p = p ++ ds /\ kept_path cfg ds.
Proof. exists []. split; [by rewrite app_nil_r|constructor]. Qed.

Lemma visited_kept n p q es :
  In (q, es) (visited cfg n p) -> exists ds, q = p ++ ds /\ kept_path cfg ds.
Proof.
  revert p q es. induction n as [f|err es IH] using node_ind_entries;
    intros p q es'.
  - simpl. intros [[= <- <-]|[]]. apply kept_here.
  - destruct err as [e|]; simpl.
    + intros [[= <- <-]|[]]. apply kept_here.
    + intros [[= <- <-]|Hin]; [apply kept_here|].
      by eapply visited_below_kept.
Qed.

Lemma emits_walk_kept root :
  emits (walker_event_kept cfg) (create_repo_summary cfg root).
Proof.
  eapply emits_mono; [|apply emits_walk].
  intros e (q & es & (ds & -> & Hds)%visited_kept & He). exists ds.
  split; [done|]. simpl.
  destruct He as [->|(fn & f & _ & _ & [->|(? & _ & _ & [->| ->])])]; eauto 6.
Qed.

Lemma renders_below_step p d e :
  d ∉ ignored_dirs cfg -> renders_below cfg (p ++ [d]) e -> renders_below cfg p e.
Proof.
  intros Hd (ds & Hds & He). exists (d :: ds). rewrite <- app_assoc in He.
  split; [by constructor|done].
Qed.

Lemma emits_tree_loop p prefix len i entries :
  Forall (fun e => e.1 ∉ ignored_dirs cfg) entries ->
  Forall (fun e => forall q pre, emits (renders_below cfg q) (e.2.2 q pre)) entries ->
  emits (renders_below cfg p) (tree_loop v cfg p prefix len i entries).
Proof.
  intros Hkeep H. revert i.
  induction H as [|[entry [isd r]] rest Hr _ IH]; intros i; simpl.
  - apply emits_ret.
  - apply Forall_cons_1 in Hkeep as [Hentry Hkeep]. simpl in Hentry, Hr.
    apply emits_bind.
    { unfold os_path_isdir. apply emits_bind; [|intros; apply emits_ret].
      apply emits_emit. exists [entry]. split; [by repeat constructor|auto]. }
    intros d _. apply emits_bind.
    + destruct d.
      * apply emits_bind; [|intros; apply emits_ret].
        eapply emits_mono; [|apply Hr]. intros e. by apply renders_below_step.
      * destruct (_ && _); apply emits_ret.
    + intros lines _. apply emits_bind; [|intros; apply emits_ret]. by apply IH.
Qed.

Lemma emits_walk_directory n p prefix :
  emits (renders_below cfg p) (walk_directory v cfg n p prefix).
Proof.
  revert p prefix. induction n as [f|err es IH] using node_ind_entries;
    intros p prefix; simpl.
  - apply emits_bind; [|intros; apply emits_raise].
    apply emits_emit. exists []. rewrite app_nil_r. split; [constructor|auto].
  - apply emits_bind.
    { apply emits_emit. exists []. rewrite app_nil_r. split; [constructor|auto]. }
    intros _ _. destruct err; [apply emits_raise|].
    apply emits_tree_loop; [apply Forall_filter_self|].
    apply Forall_filter_keep, Forall_sorted, List.Forall_map.
    eapply Forall_impl; [exact IH|]. simpl. auto.
Qed.

Lemma emits_create_directory_tree basename_normpath root_dir root :
  emits (renderer_event_kept cfg)
    (create_directory_tree basename_normpath v cfg root_dir root).
Proof.
  unfold create_directory_tree.
  apply emits_bind; [|intros; apply emits_ret].
  eapply emits_mono; [|apply emits_walk_directory].
  intros e (ds & Hds & He). exists ds. by split.
Qed.

End Pruning.

(** C3.  A directory with an ignored name, at any depth, leaves no trace:
    the tree, the repository summary and the prompt are those of the file
    system without these directories, whatever they hold, and neither the
    walker nor the renderer ever touches a path that goes through one. *)
Theorem ignored_directories_skipped
    (basename_normpath : string -> string) (v : variant) (cfg : config)
    (repo_dir : string) (root : node)
    (system_message user_instructions : option string) (l : log) :
  create_directory_tree basename_normpath v cfg repo_dir (prune cfg root) l
  = create_directory_tree basename_normpath v cfg repo_dir root l
  /\ create_repo_summary cfg (prune cfg root) l = create_repo_summary cfg root l
  /\ generate_prompt basename_normpath v cfg repo_dir (Some (prune cfg root))
       system_message user_instructions l
     = generate_prompt basename_normpath v cfg repo_dir (Some root)
         system_message user_instructions l
  /\ emits (walker_event_kept cfg) (create_repo_summary cfg root)
  /\ emits (renderer_event_kept cfg)
       (create_directory_tree basename_normpath v cfg repo_dir root).
Proof.
  assert (forall l, create_directory_tree basename_normpath v cfg repo_dir
                      (prune cfg root) l
                    = create_directory_tree basename_normpath v cfg repo_dir
                        root l) as Htree.
  { intros l0. unfold create_directory_tree.
    apply bind_ext_l, walk_directory_prune. }
  assert (forall l, create_repo_summary cfg (prune cfg root) l
                    = create_repo_summary cfg root l) as Hwalk
    by (intros; apply walk_prune).
  split_and!; auto using emits_walk_kept, emits_create_directory_tree.
  unfold generate_prompt. rewrite is_dir_prune. apply bind_ext. intros d l1.
  destruct (negb d); [done|].
  etrans; [apply bind_ext_l, Htree|]. apply bind_ext. intros tree l2.
  apply bind_ext_l, Hwalk.
Qed.

(** ** A file named like an ignored directory *)

Section IgnoredName.
Variable v : variant.
Variable cfg : config.

Lemma walk_directory_ignored_file es1 filename f es2 p prefix l :
  filename ∈ ignored_dirs cfg ->
  walk_directory v cfg (Dir None (es1 ++ (filename, File f) :: es2)) p prefix l
  = walk_directory v cfg (Dir None (es1 ++ es2)) p prefix l.
Proof.
  intros Hin. simpl. apply bind_ext. intros _ l1.
  rewrite !filter_sorted, !map_app, !filter_app. simpl.
  rewrite (filter_cons_False _ (filename, _)); [done|]. simpl. tauto.
Qed.

Lemma walk_keeps_file es filename f p l s l' :
  In (filename, File f) es -> eligible cfg filename ->
  walk cfg (Dir None es) p l = (Ok s, l') ->
  exists entry rest fs1 s' fs2,
    s = entry :: rest
    /\ directory entry = rel_dir p
    /\ files entry = fs1 ++ {| name := filename; summary := s' |} :: fs2.
Proof.
  intros Hin Hel Hrun. apply walk_ok in Hrun. simpl in Hrun.
  assert (In (filename, f) (filter (fun e => eligible cfg e.1) (files_of es)))
    as Hf by (apply In_filter; split; [done|by apply In_files_of]).
  rewrite filter_cons_True in Hrun
    by (cbn [snd]; apply has_eligible_filter; intros E; by rewrite E in Hf).
  apply Forall2_cons_inv_r in Hrun as (entry & rest & [Hdir Hfiles] & _ & ->).
  destruct (Forall2_In_r _ _ _ _ Hfiles Hf) as ([nm s'] & Hfi & Hname & _).
  simpl in Hname. subst nm. apply in_split in Hfi as (fs1 & fs2 & Hsplit).
  by exists entry, rest, fs1, s', fs2.
Qed.

End IgnoredName.

(** C9.  In both variants a regular file whose name is in the
    ignored-directory set is left out of the tree, which is rendered as if the
    file were not there; the walker keeps the file when its extension is not
    ignored, so that its block stands in the repository contents of the
    prompt. *)
Theorem ignored_name_file_tree_and_contents
    (v : variant) (cfg : config) (es1 es2 : list (string * node))
    (filename : string) (f : file) (p : path) (prefix : string) (l : log) :
  filename ∈ ignored_dirs cfg ->
  walk_directory v cfg (Dir None (es1 ++ (filename, File f) :: es2)) p prefix l
  = walk_directory v cfg (Dir None (es1 ++ es2)) p prefix l
  /\ (eligible cfg filename ->
      forall l0 repo_summary l1,
        walk cfg (Dir None (es1 ++ (filename, File f) :: es2)) p l0
        = (Ok repo_summary, l1) ->
        exists entry rest fs1 s fs2,
          repo_summary = entry :: rest
          /\ directory entry = rel_dir p
          /\ files entry = fs1 ++ {| name := filename; summary := s |} :: fs2
          /\ forall tree sm ui, exists pre post,
               prompt_parts repo_summary tree sm ui
               = pre ++ format_file {| name := filename; summary := s |} ++ post).
Proof.
  intros Hin. split; [by apply walk_directory_ignored_file|].
  intros Hel l0 repo_summary l1 Hrun.
  eapply walk_keeps_file in Hrun as (entry & rest & fs1 & s & fs2 & -> & Hd & Hf);
    [|apply in_app_iff; right; by left|done].
  exists entry, rest, fs1, s, fs2. split_and!; [done..|].
  intros tree sm ui. destruct entry as [d fs]. simpl in Hf. subst fs.
  apply (prompt_parts_block []).
Qed.

(** ** Exceptions that escape *)

(** C4.  A file whose size cannot be read aborts the run: [generate_prompt]
    is given an existing directory and raises the [OSError] of
    [os.path.getsize], in both modules. *)
Theorem getsize_failure_escapes :
  is_dir dangling_repo = true
  /\ Generator.generate_prompt (fun s => s) "repo" (Some dangling_repo)
       None None []
     = (Raise no_such_file,
        [ Isdir []; Listdir []; Isdir ["link"]; Scandir []; Getsize ["link"] ])
  /\ Repoforge.generate_prompt (fun s => s) Repoforge.defaults "repo"
       (Some dangling_repo) None None []
     = (Raise no_such_file,
        [ Isdir []; Listdir []; Isdir ["link"]; Scandir []; Getsize ["link"] ]).
Proof. split_and!; vm_compute; reflexivity. Qed.

(** ** Ignored extensions *)

(** A file whose lower-cased extension is in the set is dropped without a
    look at it. *)
Lemma file_step_ignored_extension cfg p filename f acc l :
  ~ eligible cfg filename -> file_step cfg p filename f acc l = (Ok acc, l).
Proof.
  intros Hne. unfold file_step, eligible in *.
  rewrite bool_decide_eq_true_2; [done|]. by apply dec_stable.
Qed.

(** C6.  With the ignored-extension set [{'.PNG'}] the file [a.PNG], whose
    extension is in the set letter for letter, is not dropped: its size is
    asked and it gets a summary. *)
Theorem upper_case_extension_kept :
  matches_ignoring_case upper_case_config "a.PNG"
  /\ (splitext "a.PNG").2 ∈ ignored_extensions upper_case_config
  /\ file_step upper_case_config [] "a.PNG" hello_file [] []
     = (Ok [ {| name := "a.PNG"; summary := "hello" |} ],
        [ Getsize ["a.PNG"]; Open ["a.PNG"]; Readline ["a.PNG"] ])
  /\ (Repoforge.create_repo_summary upper_case_config
        (Dir None [ ("a.PNG", File hello_file) ]) []).1
     = Ok [ {| directory := "";
               files := [ {| name := "a.PNG"; summary := "hello" |} ] |} ].
Proof.
  split_and!.
  - exists ".PNG". split; [|reflexivity].
    apply (bool_decide_unpack _). by vm_compute.
  - apply (bool_decide_unpack _). by vm_compute.
  - vm_compute. reflexivity.
  - vm_compute. reflexivity.
Qed.

(** ** The theorems at work on the examples *)

Example summarize_truncates :
  summarize_text_file ["f"]
    (text_file 6 ("a" +:+ NL +:+ "b" +:+ NL +:+ "c" +:+ NL)) 2 []
  = (Ok ("a" +:+ NL +:+ "b" +:+ NL +:+ "... [Truncated]"),
     [ Open ["f"]; Readline ["f"]; Readline ["f"]; Readline ["f"] ]).
Proof. reflexivity. Qed.

Example example_repo_tree :
  (Generator.create_directory_tree (fun s => s) "repo" example_repo []).1
  = Ok ("repo/" +:+ NL +:+ "└── a.txt").
Proof. vm_compute. reflexivity. Qed.

Example example_repo_summary :
  Generator.create_repo_summary example_repo [] = (Ok example_summary, example_log).
Proof. vm_compute. reflexivity. Qed.

Example dotgit_file_tree :
  (Generator.create_directory_tree (fun s => s) "repo" dotgit_file_repo []).1
  = Ok ("repo/" +:+ NL +:+ "└── a.txt").
Proof. vm_compute. reflexivity. Qed.

Example dotgit_file_summary :
  (Generator.create_repo_summary dotgit_file_repo []).1
  = Ok [ {| directory := "";
            files := [ {| name := "a.txt"; summary := "hello" |};
                       {| name := ".git"; summary := "hello" |} ] |} ].
Proof. vm_compute. reflexivity. Qed.

Example pictures_repo_summary :
  Generator.create_repo_summary pictures_repo []
  = (Ok [ {| directory := "img/src";
             files := [ {| name := "m.py"; summary := "hello" |} ] |} ],
     [ Scandir []; Scandir ["img"]; Scandir ["img"; "src"];
       Getsize ["img"; "src"; "m.py"]; Open ["img"; "src"; "m.py"];
       Readline ["img"; "src"; "m.py"] ]).
Proof. vm_compute. reflexivity. Qed.

Lemma summarize_text_file_readable_witness :
  f_content hello_file = Stream ("hello" +:+ NL) None
  /\ 0 <= 500
  /\ summarize_text_file ["a.txt"] hello_file 500 []
     = (Ok (join_nl (expected_summary ("hello" +:+ NL) 500)),
        [] ++ Open ["a.txt"]
           :: repeat (Readline ["a.txt"])
                (Z.to_nat (Z.min (line_count ("hello" +:+ NL)) (500 + 1)))).
Proof.
  split; [reflexivity|]. split; [lia|].
  apply (summarize_text_file_readable ["a.txt"] hello_file ("hello" +:+ NL) 500 []);
    [reflexivity|lia].
Defined.

Lemma oversized_file_placeholder_witness :
  eligible Generator.constants "big.txt"
  /\ f_size big_file = Ok 100001%N
  /\ Z.of_N 100001 > max_file_size_bytes Generator.constants
  /\ file_step Generator.constants [] "big.txt" big_file [] []
     = (Ok ([] ++ [ {| name := "big.txt";
                       summary := "File size (" +:+ str_of_N 100001
                                  +:+ " bytes) exceeds limit; skipping content." |} ]),
        [] ++ [Getsize ([] ++ ["big.txt"])]).
Proof.
  assert (eligible Generator.constants "big.txt") as Hel
    by (apply (bool_decide_unpack _); vm_compute; exact I).
  split; [exact Hel|]. split; [reflexivity|]. split; [reflexivity|].
  apply (oversized_file_placeholder Generator.constants [] "big.txt" big_file
           100001%N [] [] Hel); reflexivity.
Defined.

Lemma directories_with_eligible_files_witness :
  create_repo_summary Generator.constants example_repo []
  = (Ok example_summary, example_log)
  /\ map directory example_summary
     = map (fun d => rel_dir d.1)
         (filter (fun d => has_eligible Generator.constants d.2)
            (visited Generator.constants example_repo []))
  /\ (exists t, example_log = [] ++ t
         /\ scans t = map fst (visited Generator.constants example_repo [])).
Proof.
  assert (create_repo_summary Generator.constants example_repo []
          = (Ok example_summary, example_log)) as Hrun
    by (vm_compute; reflexivity).
  split; [exact Hrun|].
  pose proof (directories_with_eligible_files Generator.constants example_repo []
                example_summary example_log Hrun) as (H1 & H2 & _).
  split; [exact H1|exact H2].
Defined.

Lemma ignored_name_file_tree_and_contents_witness :
  ".git" ∈ ignored_dirs Generator.constants
  /\ walk_directory GeneratorPy Generator.constants dotgit_file_repo [] "" []
     = walk_directory GeneratorPy Generator.constants
         (Dir None ([ ("a.txt", File hello_file) ] ++ [])) [] "" [].
Proof.
  assert (".git" ∈ ignored_dirs Generator.constants) as Hin
    by (apply (bool_decide_unpack _); vm_compute; exact I).
  split; [exact Hin|].
  apply (ignored_name_file_tree_and_contents GeneratorPy Generator.constants
           [ ("a.txt", File hello_file) ] [] ".git" hello_file [] "" [] Hin).
Defined.

Lemma empty_file_content_block_witness :
  f_content empty_file = Stream "" None
  /\ summarize_text_file ["empty"] empty_file 500 [] = (Ok "", [] ++ [Open ["empty"]]).
Proof.
  split; [reflexivity|].
  apply (empty_file_content_block ["empty"] empty_file 500 [] "empty").
  reflexivity.
Defined.

Example strip_wide_spaces :
  strip (no_break_space +:+ " hi there" +:+ ideographic_space +:+ NL)
  = "hi there".
Proof. reflexivity. Qed.

Example strip_keeps_letters :
  strip (" " +:+ a_grave +:+ " la " +:+ a_grave +:+ no_break_space)
  = a_grave +:+ " la " +:+ a_grave.
Proof. reflexivity. Qed.

Example section_of_padded_message :
  section_text "No system message provided."
    (Some (no_break_space +:+ "Be brief." +:+ no_break_space))
  = "Be brief.".
Proof. reflexivity. Qed.

(** * Further properties *)

(** ** Reading a file that fails *)

Lemma read_loop_stream p lines tail i max_lines acc l :
  Forall is_line lines -> i <= max_lines ->
  read_loop p lines tail i max_lines acc l =
    (if Z.of_nat (length lines) >? max_lines - i
     then Ok (acc ++ map chomp (take (Z.to_nat (max_lines - i)) lines)
                  ++ [TRUNCATED])
     else match tail with
          | None => Ok (acc ++ map chomp lines)
          | Some e => Raise e
          end,
     l ++ repeat (Readline p)
            (Z.to_nat (Z.min (Z.of_nat (length lines)) (max_lines - i + 1)))).
Proof.
  intros Hl. revert i acc l.
  induction Hl as [|line rest Hline _ IH]; intros i acc l Hi.
  - simpl length. unfold read_loop.
    destruct (Z.gtb_spec (Z.of_nat 0) (max_lines - i)); [lia|].
    replace (Z.to_nat _) with 0%nat by lia. simpl. rewrite !app_nil_r.
    by destruct tail.
  - cbn [read_loop]. unfold bind at 1, emit at 1.
    destruct (Z.geb_spec i max_lines) as [Hcap|Hcap].
    + assert (i = max_lines) as -> by lia. unfold ret.
      rewrite Z.sub_diag. simpl take. simpl map.
      destruct (Z.gtb_spec (Z.of_nat (length (line :: rest))) 0);
        [|simpl length in *; lia].
      replace (Z.to_nat _) with 1%nat by (simpl length; lia).
      done.
    + rewrite IH by lia.
      replace (Z.to_nat (max_lines - i))
        with (S (Z.to_nat (max_lines - (i + 1)))) by lia.
      simpl take. simpl map. rewrite (rstrip_nl_line line Hline).
      replace (Z.to_nat (Z.min (Z.of_nat (length (line :: rest))) (max_lines - i + 1)))
        with (S (Z.to_nat (Z.min (Z.of_nat (length rest)) (max_lines - (i + 1) + 1))))
        by (simpl length; lia).
      simpl repeat.
      destruct (Z.gtb_spec (Z.of_nat (length rest)) (max_lines - (i + 1)));
        destruct (Z.gtb_spec (Z.of_nat (length (line :: rest))) (max_lines - i));
        simpl length in *; try lia; rewrite <- ?app_assoc; done.
Qed.

Lemma expected_summary_within text max_lines :
  line_count text <= max_lines ->
  expected_summary text max_lines = map chomp (readlines text).
Proof.
  intros Hn. unfold expected_summary.
  destruct (Z.gtb_spec (line_count text) max_lines); [lia|].
  rewrite Z.min_l by done. unfold line_count.
  rewrite take_ge by lia. by rewrite app_nil_r.
Qed.

Lemma expected_summary_beyond text max_lines :
  0 <= max_lines < line_count text ->
  expected_summary text max_lines
  = map chomp (take (Z.to_nat max_lines) (readlines text)) ++ [TRUNCATED].
Proof.
  intros Hn. unfold expected_summary.
  destruct (Z.gtb_spec (line_count text) max_lines); [|lia].
  by rewrite Z.min_r by lia.
Qed.

Lemma summarize_text_file_stream p f text tail max_lines l :
  f_content f = Stream text tail -> 0 <= max_lines ->
  summarize_text_file p f max_lines l =
    (Ok (stream_summary text tail max_lines),
     l ++ Open p
         :: repeat (Readline p)
              (Z.to_nat (Z.min (line_count text) (max_lines + 1)))).
Proof.
  intros Hf Hmax. unfold summarize_text_file.
  unfold bind at 1, try_except, bind at 1, emit. rewrite Hf.
  rewrite read_loop_stream by (apply readlines_lines || lia).
  rewrite !Z.sub_0_r. fold (line_count text). unfold stream_summary.
  rewrite <- app_assoc. simpl app.
  destruct (Z.gtb_spec (line_count text) max_lines).
  - unfold ret. by rewrite expected_summary_beyond by lia.
  - destruct tail; unfold ret; [done|].
    by rewrite expected_summary_within by lia.
Qed.

(** X1.  A file that cannot be opened, or whose reading fails before the cap
    is passed, is summarised by the one line ["Error reading file: ..."]: the
    lines read before the failure are dropped and nothing is raised. *)
Theorem summarize_text_file_error
    (filepath : path) (f : file) (e : exn) (max_lines : Z) (l : log) :
  f_content f = Unopenable e
  \/ (exists text, f_content f = Stream text (Some e)
        /\ 0 <= max_lines /\ line_count text <= max_lines) ->
  exists l',
    summarize_text_file filepath f max_lines l
    = (Ok ("Error reading file: " +:+ str_of_exn e), l').
Proof.
  intros [Hf|(text & Hf & Hmax & Hn)].
  - exists (l ++ [Open filepath]).
    unfold summarize_text_file, bind, try_except, emit. by rewrite Hf.
  - eexists. rewrite (summarize_text_file_stream _ _ _ _ _ _ Hf Hmax).
    unfold stream_summary.
    destruct (Z.gtb_spec (line_count text) max_lines); [lia|]. done.
Qed.

(** X2.  When the iteration over a file delivers more lines than the cap,
    before it ends or fails, the summary is the first [max_lines] delivered
    lines and the marker: exactly [max_lines + 1] lines are fetched, so a
    failure that a later fetch would raise is never met.  (A failure counts
    from the fetch that raises it: a byte that cannot be decoded fails the
    fetch that reads its block, so it is met before the lines of its block.) *)
Theorem summarize_text_file_stops_before_failure
    (filepath : path) (f : file) (text : string) (tail : option exn)
    (max_lines : Z) (l : log) :
  f_content f = Stream text tail ->
  0 <= max_lines < line_count text ->
  summarize_text_file filepath f max_lines l
  = (Ok (join_nl (map chomp (take (Z.to_nat max_lines) (readlines text))
                  ++ [TRUNCATED])),
     l ++ Open filepath
         :: repeat (Readline filepath) (Z.to_nat (max_lines + 1))).
Proof.
  intros Hf Hn. rewrite (summarize_text_file_stream _ _ _ _ _ _ Hf) by lia.
  unfold stream_summary.
  destruct (Z.gtb_spec (line_count text) max_lines); [|lia].
  rewrite expected_summary_beyond by lia. by rewrite Z.min_r by lia.
Qed.

(** ** From the file to its content block *)

Lemma no_nl_append a b : no_nl a = true -> no_nl (a +:+ b) = no_nl b.
Proof.
  induction a as [|c a IH]; [done|]. rewrite append_cons. simpl.
  intros [-> Ha]%andb_prop. simpl. auto.
Qed.

Lemma split_nl_append a b :
  no_nl a = true ->
  split_nl (a +:+ NL +:+ b) = a :: split_nl b.
Proof.
  induction a as [|c a IH]; [done|]. rewrite append_cons. simpl.
  intros [Hc Ha]%andb_prop. apply negb_true_iff in Hc. rewrite Hc.
  by rewrite IH.
Qed.

Lemma split_nl_no_nl a : no_nl a = true -> split_nl a = [a].
Proof.
  induction a as [|c a IH]; [done|]. simpl.
  intros [Hc Ha]%andb_prop. apply negb_true_iff in Hc. rewrite Hc.
  by rewrite IH.
Qed.

(** Splitting undoes joining, for a list with an element and no line feed
    in any. *)
Lemma split_join_nl ls :
  ls <> [] -> Forall (fun s => no_nl s = true) ls ->
  split_nl (join_nl ls) = ls.
Proof.
  intros Hne Hls. induction Hls as [|a ls Ha Hls IH]; [done|].
  destruct ls as [|b ls].
  - simpl. by apply split_nl_no_nl.
  - change (join_nl (a :: b :: ls)) with (a +:+ NL +:+ join_nl (b :: ls)).
    rewrite split_nl_append by done. by rewrite IH.
Qed.

Lemma chomp_line_no_nl line : is_line line -> no_nl (chomp line) = true.
Proof.
  intros (b & Hb & [-> | ->]).
  - by rewrite chomp_no_nl.
  - by rewrite chomp_terminated.
Qed.

Lemma readlines_nonempty text : text <> "" -> readlines text <> [].
Proof.
  destruct text as [|c text]; [done|]. intros _. simpl.
  destruct (is_nl c); [done|]. by destruct (readlines text).
Qed.

Lemma expected_summary_lines text max_lines :
  Forall (fun s => no_nl s = true) (expected_summary text max_lines).
Proof.
  unfold expected_summary. apply Forall_app. split.
  - apply List.Forall_map. apply Forall_take.
    eapply Forall_impl; [apply readlines_lines|]. apply chomp_line_no_nl.
  - destruct (_ >? _); by repeat constructor.
Qed.

Lemma expected_summary_nonempty text max_lines :
  text <> "" -> expected_summary text max_lines <> [].
Proof.
  intros Hne%readlines_nonempty. unfold expected_summary, line_count.
  destruct (readlines text) as [|line rest] eqn:E; [done|].
  destruct (Z.gtb_spec (Z.of_nat (length (line :: rest))) max_lines) as [H|H].
  - by destruct (map chomp _).
  - replace (Z.to_nat _) with (S (length rest)) by (simpl length in *; lia).
    done.
Qed.

(** X3.  The content block of a readable file that is not empty has one line
    per line of the summary: each line of the file up to the cap, without its
    line feed, behind nine spaces, and the marker line when the file is
    longer.  Joining in [summarize_text_file] and splitting in
    [format_prompt_xml] cancel out. *)
Theorem content_block_of_readable_file
    (filepath : path) (f : file) (text : string) (max_lines : Z) (l : log)
    (filename : string) :
  f_content f = Stream text None ->
  text <> "" ->
  0 <= max_lines ->
  exists s l',
    summarize_text_file filepath f max_lines l = (Ok s, l')
    /\ format_file {| name := filename; summary := s |}
       = [ "    <file name=" +:+ QUOTE +:+ filename +:+ QUOTE +:+ ">";
           "      <content>" ]
         ++ map (fun line => nine_spaces +:+ line)
              (expected_summary text max_lines)
         ++ [ "      </content>"; "    </file>" ].
Proof.
  intros Hf Hne Hmax. eexists _, _. split.
  - by apply (summarize_text_file_stream _ _ _ _ _ _ Hf).
  - unfold format_file, stream_summary. cbn [name summary].
    replace (if line_count text >? max_lines
             then join_nl (expected_summary text max_lines)
             else join_nl (expected_summary text max_lines))
      with (join_nl (expected_summary text max_lines)) by (by destruct (_ >? _)).
    rewrite split_join_nl
      by auto using expected_summary_nonempty, expected_summary_lines.
    done.
Qed.

(** ** Which exceptions the walker lets through *)

Lemma bind_result {A B} (m : M A) (f : A -> M B) l :
  (bind m f l).1
  = match (m l).1 with
    | Ok a => (f a (m l).2).1
    | Raise e => Raise e
    end.
Proof. unfold bind. by destruct (m l) as [[a|e] l1]. Qed.

Lemma head_app_nil {A} (a b : list A) : a = [] -> head (a ++ b) = head b.
Proof. by intros ->. Qed.

Lemma head_app_some {A} (a b : list A) x :
  head a = Some x -> head (a ++ b) = Some x.
Proof. by destruct a. Qed.

Section WalkerErrors.
Variable cfg : config.

Lemma os_path_getsize_run p f l :
  os_path_getsize p f l
  = (match f_size f with Ok n => Ok n | Raise e => Raise e end,
     l ++ [Getsize p]).
Proof. unfold os_path_getsize, bind, emit. by destruct (f_size f). Qed.

Lemma file_step_cases p filename f acc l :
  (~ eligible cfg filename
   /\ file_step cfg p filename f acc l = (Ok acc, l))
  \/ (eligible cfg filename
      /\ ((exists e, f_size f = Raise e
                     /\ (file_step cfg p filename f acc l).1 = Raise e)
          \/ (exists n acc', f_size f = Ok n
                 /\ (file_step cfg p filename f acc l).1 = Ok acc'))).
Proof.
  unfold file_step, eligible. case_bool_decide as Hext.
  - left. split; [tauto|done].
  - right. split; [done|]. rewrite bind_result, os_path_getsize_run.
    destruct (f_size f) as [n|e]; [right|left; eauto].
    exists n. cbn [fst snd].
    destruct (Z.of_N n >? max_file_size_bytes cfg); [by eexists|].
    rewrite bind_result.
    destruct (summarize_text_file_returns (p ++ [filename]) f
                (max_summary_lines cfg) (l ++ [Getsize (p ++ [filename])]))
      as (s & l1 & ->).
    by eexists.
Qed.

Lemma file_loop_meets p files acc l :
  meets (file_loop cfg p files acc l).1
    (omap (fun e => match f_size e.2 with Raise x => Some x | Ok _ => None end)
       (filter (fun e => eligible cfg e.1) files)).
Proof.
  revert acc l. induction files as [|[filename f] rest IH]; intros acc l.
  - done.
  - cbn [file_loop]. rewrite bind_result, filter_cons. cbn [fst].
    destruct (file_step_cases p filename f acc l)
      as [[Hne ->]|[Hel [(e & Hf & ->)|(n & acc' & Hf & Hstep)]]].
    + rewrite decide_False by done. apply IH.
    + rewrite decide_True by done. cbn [omap list_omap snd]. by rewrite Hf.
    + rewrite decide_True by done. cbn [omap list_omap snd]. rewrite Hf.
      destruct (file_step cfg p filename f acc l) as [r l1].
      simpl in Hstep. subst r. apply IH.
Qed.

Lemma descend_meets walk p es l :
  Forall (fun e => forall q l,
            meets (walk e.2 q l).1
              (flat_map (fun d => size_errors_here cfg d.2)
                 (visited cfg e.2 q))) es ->
  meets (descend cfg walk p es l).1
    (flat_map (fun d => size_errors_here cfg d.2)
       (visited_below cfg (visited cfg) p es)).
Proof.
  intros H. revert l. induction H as [|[d c] es Hc _ IH]; intros l; [done|].
  simpl. destruct (is_dir c && bool_decide (d ∉ ignored_dirs cfg)); [|apply IH].
  rewrite bind_result, flat_map_app.
  specialize (Hc (p ++ [d]) l). simpl in Hc.
  destruct (walk c (p ++ [d]) l) as [[r|e] l1]; simpl in *.
  - rewrite bind_result. specialize (IH l1).
    destruct (descend cfg walk p es l1) as [[rs|e] l2]; simpl in *.
    + by rewrite Hc, IH.
    + by rewrite head_app_nil.
  - by apply head_app_some.
Qed.

Lemma walk_meets n p l :
  meets (walk cfg n p l).1
    (flat_map (fun d => size_errors_here cfg d.2) (visited cfg n p)).
Proof.
  revert p l. induction n as [f|err es IH] using node_ind_entries; intros p l.
  - done.
  - cbn [walk]. rewrite bind_result. cbn [emit fst snd].
    destruct err as [e|]; [done|]. cbn [visited flat_map snd].
    rewrite bind_result.
    pose proof (file_loop_meets p (files_of es) [] (l ++ [Scandir p])) as Hfiles.
    fold (size_errors_here cfg es) in Hfiles.
    destruct (file_loop cfg p (files_of es) [] (l ++ [Scandir p]))
      as [[fsums|e] l1]; simpl in *.
    + rewrite bind_result.
      pose proof (descend_meets _ p es l1 IH) as Hbelow.
      destruct (descend cfg (walk cfg) p es l1) as [[rs|e] l2]; simpl in *.
      * by rewrite Hfiles, Hbelow.
      * by rewrite head_app_nil.
    + by apply head_app_some.
Qed.

End WalkerErrors.

(** X5.  The walker fails only on the size of a kept file: it raises the
    first error [os.path.getsize] meets on a file with a kept extension, in
    the order of the traversal, and returns when there is none, whatever
    the files hold and whether or not they can be opened or decoded. *)
Theorem create_repo_summary_outcome (cfg : config) (root : node) (l : log) :
  (forall e, (create_repo_summary cfg root l).1 = Raise e
             <-> head (size_errors cfg root) = Some e)
  /\ ((exists repo_summary,
         (create_repo_summary cfg root l).1 = Ok repo_summary)
      <-> size_errors cfg root = []).
Proof.
  pose proof (walk_meets cfg root [] l) as H.
  unfold create_repo_summary, size_errors.
  destruct (walk cfg root [] l) as [[s|e] l1]; simpl in *.
  - rewrite H. split.
    + intros e. split; done.
    + split; eauto.
  - split.
    + intros e'. rewrite H. split; congruence.
    + split; [by intros [? ?]|]. intros E. by rewrite E in H.
Qed.

(** ** Sorting the listing *)

Section SortedPerm.
Context {A : Type}.
Implicit Types (x y : string * A) (l : list (string * A)).

Lemma insert_sorted_perm x l : Permutation (insert_sorted x l) (x :: l).
Proof.
  induction l as [|y l IH]; simpl; [done|].
  destruct (String.leb x.1 y.1); [done|].
  rewrite IH. apply perm_swap.
Qed.

Lemma sorted_perm l : Permutation (sorted l) l.
Proof.
  induction l as [|x l IH]; simpl; [done|].
  rewrite insert_sorted_perm. by constructor.
Qed.

Lemma In_sorted x l : In x (sorted l) <-> In x l.
Proof.
  split; apply Permutation_in; [|symmetry]; apply sorted_perm.
Qed.

(** A list with distinct names has one sorted arrangement. *)
Lemma strongly_sorted_unique l1 l2 :
  StronglySorted name_le l1 -> StronglySorted name_le l2 ->
  Permutation l1 l2 -> List.NoDup (map fst l1) -> l1 = l2.
Proof.
  intros H1. revert l2. induction H1 as [|x t1 Ht1 IH Hx]; intros l2 H2 Hp Hnd.
  - by apply Permutation_nil in Hp.
  - destruct H2 as [|y t2 Ht2 Hy].
    { symmetry in Hp. by apply Permutation_nil in Hp. }
    assert (x = y) as <-.
    { assert (In x (y :: t2)) as [->|Hxin]
        by (eapply Permutation_in; [exact Hp|by left]); [done|].
      assert (In y (x :: t1)) as [->|Hyin]
        by (eapply Permutation_in; [symmetry; exact Hp|by left]); [done|].
      rewrite List.Forall_forall in Hx, Hy.
      apply (NoDup_map_inj fst (x :: t1)); [done|by left|by right|].
      apply String.leb_antisym; [by apply Hx|by apply Hy]. }
    f_equal. apply IH; [done|by eapply Permutation_cons_inv|].
    simpl in Hnd. by apply List.NoDup_cons_iff in Hnd as [_ ?].
Qed.

Lemma sorted_perm_eq l l' :
  Permutation l l' -> List.NoDup (map fst l) -> sorted l = sorted l'.
Proof.
  intros Hp Hnd. apply strongly_sorted_unique; try apply sorted_sorted.
  - by rewrite !sorted_perm.
  - eapply Permutation_NoDup; [|exact Hnd].
    apply Permutation_map. symmetry. apply sorted_perm.
Qed.

End SortedPerm.

Lemma sorted_map {A B} (h : string * A -> string * B) l :
  (forall x, (h x).1 = x.1) -> sorted (map h l) = map h (sorted l).
Proof.
  intros Hh. induction l as [|x l IH]; [done|]. simpl. rewrite IH.
  generalize (sorted l) as k. clear IH. intros k.
  induction k as [|y k IH]; [done|]. simpl. rewrite !Hh.
  destruct (String.leb x.1 y.1); [done|]. simpl. by rewrite IH.
Qed.

Section RendererOutcome.
Variable v : variant.
Variable cfg : config.

Lemma filter_kept_map {A B} (h : string * A -> string * B) l :
  (forall x, (h x).1 = x.1) ->
  filter (fun e => e.1 ∉ ignored_dirs cfg) (map h l)
  = map h (filter (fun e => e.1 ∉ ignored_dirs cfg) l).
Proof.
  intros Hh. induction l as [|x l IH]; [done|]. simpl.
  rewrite !filter_cons, IH.
  destruct (decide ((h x).1 ∉ ignored_dirs cfg)) as [H1|H1],
           (decide (x.1 ∉ ignored_dirs cfg)) as [H2|H2];
    rewrite Hh in H1; done.
Qed.

(** The entries the loop of the renderer goes through. *)
Lemma walk_directory_entries es :
  filter (fun e => e.1 ∉ ignored_dirs cfg)
    (sorted (map (fun e => (e.1, (is_dir e.2, walk_directory v cfg e.2))) es))
  = map (tree_entry v cfg)
      (filter (fun e => e.1 ∉ ignored_dirs cfg) (sorted es)).
Proof.
  change (fun e : string * node => (e.1, (is_dir e.2, walk_directory v cfg e.2)))
    with (tree_entry v cfg).
  rewrite (sorted_map (tree_entry v cfg)) by done.
  by rewrite (filter_kept_map (tree_entry v cfg)).
Qed.

Lemma os_path_isdir_run p b l : os_path_isdir p b l = (Ok b, l ++ [Isdir p]).
Proof. done. Qed.

Lemma tree_loop_cons p prefix len i entry isd (r : render) rest :
  tree_loop v cfg p prefix len i ((entry, (isd, r)) :: rest)
  = (d <- os_path_isdir (p ++ [entry]) isd ;;
     lines <-
       (if d then
          below <- r (p ++ [entry])
                     (prefix +:+ (if i =? len - 1 then GAP else BAR)) ;;
          ret ((prefix +:+ (if i =? len - 1 then ELL else TEE)
                +:+ entry +:+ "/") :: below)
        else if tree_filters_extensions v
                && bool_decide (lower (splitext entry).2 ∈ ignored_extensions cfg)
        then ret []
        else ret [prefix +:+ (if i =? len - 1 then ELL else TEE) +:+ entry]) ;;
     more <- tree_loop v cfg p prefix len (i + 1) rest ;;
     ret (lines ++ more)).
Proof. done. Qed.

Lemma tree_loop_stops p prefix len i entries l :
  Forall (fun e => is_dir e.2 = true ->
            forall q pre l, stops_at cfg e.2 (walk_directory v cfg e.2 q pre l).1)
    entries ->
  match (tree_loop v cfg p prefix len i (map (tree_entry v cfg) entries) l).1 with
  | Ok _ => Forall (fun e => is_dir e.2 = true -> unlistable cfg e.2 = []) entries
  | Raise x =>
      Exists (fun e => is_dir e.2 = true /\ In x (unlistable cfg e.2)) entries
  end.
Proof.
  intros H. revert i l. induction H as [|[d c] rest Hc _ IH]; intros i l.
  - simpl. constructor.
  - cbn [map]. unfold tree_entry at 1. cbn [fst snd].
    rewrite tree_loop_cons. unfold bind at 1. rewrite os_path_isdir_run.
    unfold bind at 1. simpl in Hc. destruct (is_dir c) eqn:Hd.
    + unfold bind at 1. specialize (Hc eq_refl).
      match goal with
      | |- context [walk_directory v cfg c ?q ?pre ?l0] =>
          specialize (Hc q pre l0);
          destruct (walk_directory v cfg c q pre l0) as [[below|x] l1]
      end; cbn [fst snd ret stops_at] in *.
      * unfold bind at 1. specialize (IH (i + 1) l1).
        destruct (tree_loop v cfg p prefix len (i + 1)
                    (map (tree_entry v cfg) rest) l1) as [[more|x] l2];
          cbn [fst snd ret] in *.
        -- constructor; [done|exact IH].
        -- by apply Exists_cons_tl.
      * apply Exists_cons_hd. by split.
    + assert (exists ls,
                (if tree_filters_extensions v
                    && bool_decide (lower (splitext d).2 ∈ ignored_extensions cfg)
                 then ret []
                 else ret [prefix +:+ (if i =? len - 1 then ELL else TEE) +:+ d])
                  (l ++ [Isdir (p ++ [d])])
                = (Ok ls, l ++ [Isdir (p ++ [d])])) as (ls & ->)
        by (destruct (_ && _); by eexists).
      unfold bind at 1.
      specialize (IH (i + 1) (l ++ [Isdir (p ++ [d])])).
      destruct (tree_loop v cfg p prefix len (i + 1)
                  (map (tree_entry v cfg) rest) (l ++ [Isdir (p ++ [d])]))
        as [[more|x] l2]; cbn [fst snd ret] in *.
      * constructor; [simpl; congruence|exact IH].
      * by apply Exists_cons_tl.
Qed.

Lemma unlistable_below_nil es :
  unlistable_below cfg (unlistable cfg) es = []
  <-> Forall (fun e => e.1 ∉ ignored_dirs cfg -> is_dir e.2 = true ->
                       unlistable cfg e.2 = []) es.
Proof.
  induction es as [|[d c] es IH]; simpl.
  - split; [constructor|done].
  - rewrite Forall_cons. simpl. rewrite <- IH.
    destruct (is_dir c); simpl.
    + case_bool_decide as Hk; simpl.
      * rewrite app_nil. tauto.
      * tauto.
    + split; [intros ?; split; [done|done]|tauto].
Qed.

Lemma In_unlistable_below x es :
  In x (unlistable_below cfg (unlistable cfg) es)
  <-> Exists (fun e => (e.1 ∉ ignored_dirs cfg) /\ is_dir e.2 = true
                       /\ In x (unlistable cfg e.2)) es.
Proof.
  induction es as [|[d c] es IH]; simpl.
  - by rewrite Exists_nil.
  - rewrite Exists_cons. simpl. rewrite <- IH.
    destruct (is_dir c); simpl.
    + case_bool_decide as Hk; simpl.
      * rewrite in_app_iff. tauto.
      * tauto.
    + split; [tauto|]. intros [(_ & ? & _)|?]; [done|tauto].
Qed.

Lemma walk_directory_stops n :
  is_dir n = true ->
  forall p prefix l, stops_at cfg n (walk_directory v cfg n p prefix l).1.
Proof.
  induction n as [f|err es IH] using node_ind_entries; [done|].
  intros _ p prefix l. cbn [walk_directory]. rewrite bind_result.
  cbn [emit fst snd]. destruct err as [e|]; [by left|].
  rewrite walk_directory_entries. cbn [unlistable stops_at].
  assert (Forall (fun e => is_dir e.2 = true ->
                    forall q pre l,
                      stops_at cfg e.2 (walk_directory v cfg e.2 q pre l).1)
            (filter (fun e => e.1 ∉ ignored_dirs cfg) (sorted es))) as Hent.
  { apply Forall_filter_keep, Forall_sorted. exact IH. }
  match goal with
  | |- context [tree_loop v cfg p prefix ?len ?i _ ?l0] =>
      pose proof (tree_loop_stops p prefix len i _ l0 Hent) as Hloop;
      destruct (tree_loop v cfg p prefix len i
                  (map (tree_entry v cfg)
                     (filter (fun e => e.1 ∉ ignored_dirs cfg) (sorted es))) l0)
        as [[lines|x] l1]
  end; simpl in *.
  - apply unlistable_below_nil. rewrite List.Forall_forall in *.
    intros e He Hk Hd. apply Hloop; [|done].
    apply In_filter. split; [done|]. by apply In_sorted.
  - apply In_unlistable_below. rewrite List.Exists_exists in *.
    destruct Hloop as (e & [Hk He]%In_filter & Hd & Hx).
    apply (proj1 (In_sorted _ _)) in He. eauto.
Qed.

End RendererOutcome.

Lemma create_directory_tree_stops basename_normpath v cfg root_dir root l :
  is_dir root = true ->
  match (create_directory_tree basename_normpath v cfg root_dir root l).1 with
  | Ok _ => unlistable cfg root = []
  | Raise e => In e (unlistable cfg root)
  end.
Proof.
  intros Hd. unfold create_directory_tree. rewrite bind_result.
  pose proof (walk_directory_stops v cfg root Hd [] "" l) as H.
  by destruct (walk_directory v cfg root [] "" l) as [[lines|x] l1].
Qed.

(** X6.  The renderer of an existing directory fails only on a directory it
    cannot list: an exception it raises is the listing error of a directory
    reached through kept names, and it returns exactly when there is no such
    directory. *)
Theorem create_directory_tree_outcome
    (basename_normpath : string -> string) (v : variant) (cfg : config)
    (root_dir : string) (root : node) (l : log) :
  is_dir root = true ->
  (forall e,
     (create_directory_tree basename_normpath v cfg root_dir root l).1 = Raise e
     -> In e (unlistable cfg root))
  /\ ((exists tree,
         (create_directory_tree basename_normpath v cfg root_dir root l).1
         = Ok tree)
      <-> unlistable cfg root = []).
Proof.
  intros Hd.
  pose proof (create_directory_tree_stops basename_normpath v cfg root_dir
                root l Hd) as H.
  destruct (create_directory_tree basename_normpath v cfg root_dir root l)
    as [[tree|x] l1]; simpl in *.
  - split; [done|]. split; eauto.
  - split; [congruence|]. split; [by intros [? ?]|].
    intros E. by rewrite E in H.
Qed.

(** X8.  The tree of a directory whose entries have distinct names does not
    depend on the order in which [os.listdir] enumerates them: the listing is
    sorted before anything else is done with it. *)
Theorem tree_independent_of_listing_order
    (v : variant) (cfg : config) (es es' : list (string * node))
    (p : path) (prefix : string) (l : log) :
  Permutation es es' ->
  List.NoDup (map fst es) ->
  walk_directory v cfg (Dir None es) p prefix l
  = walk_directory v cfg (Dir None es') p prefix l.
Proof.
  intros Hp Hnd. cbn [walk_directory].
  rewrite !walk_directory_entries. by rewrite (sorted_perm_eq es es').
Qed.

(** ** The entry point *)

Lemma framed_fst {A} (m : M A) l : framed m -> (m l).1 = (m []).1.
Proof. intros Hm. by rewrite (Hm l). Qed.

(** X7.  [generate_prompt] on a path that names no directory raises the
    [ValueError] after the one check and before any traversal.  On a
    directory, an exception that escapes is the listing error of a directory
    the renderer cannot list or, when there is none, the first error of
    [os.path.getsize] on a kept file; without either, the result is
    [format_prompt_xml] of the summary of the walker and the tree of the
    renderer. *)
Theorem generate_prompt_outcome
    (basename_normpath : string -> string) (v : variant) (cfg : config)
    (repo_dir : string) (root : option node)
    (system_message user_instructions : option string) (l : log) :
  (match root with Some r => is_dir r | None => false end = false ->
   generate_prompt basename_normpath v cfg repo_dir root
     system_message user_instructions l
   = (Raise (ValueError ("Directory " +:+ repo_dir +:+ " does not exist.")),
      l ++ [Isdir []]))
  /\ forall r, root = Some r -> is_dir r = true ->
       (forall e,
          (generate_prompt basename_normpath v cfg repo_dir root
             system_message user_instructions l).1 = Raise e ->
          In e (unlistable cfg r)
          \/ (unlistable cfg r = [] /\ head (size_errors cfg r) = Some e))
       /\ (unlistable cfg r = [] -> size_errors cfg r = [] ->
           exists tree repo_summary,
             (create_directory_tree basename_normpath v cfg repo_dir r []).1
             = Ok tree
             /\ (create_repo_summary cfg r []).1 = Ok repo_summary
             /\ (generate_prompt basename_normpath v cfg repo_dir root
                   system_message user_instructions l).1
                = Ok (format_prompt_xml repo_summary tree
                        system_message user_instructions)).
Proof.
  split.
  - intros Hno. unfold generate_prompt, bind. rewrite os_path_isdir_run.
    destruct root as [r|]; [|done]. by rewrite Hno.
  - intros r -> Hd. set (l1 := l ++ [Isdir []]).
    assert ((generate_prompt basename_normpath v cfg repo_dir (Some r)
               system_message user_instructions l).1
            = match (create_directory_tree basename_normpath v cfg repo_dir
                       r l1).1 with
              | Ok tree =>
                  match (create_repo_summary cfg r
                           (create_directory_tree basename_normpath v cfg
                              repo_dir r l1).2).1 with
                  | Ok s => Ok (format_prompt_xml s tree
                                  system_message user_instructions)
                  | Raise e => Raise e
                  end
              | Raise e => Raise e
              end) as ->.
    { unfold generate_prompt. rewrite bind_result, os_path_isdir_run.
      cbn [fst snd]. rewrite Hd. cbn [negb]. rewrite bind_result. fold l1.
      destruct (create_directory_tree _ _ _ _ _ l1) as [[tree|x] l2];
        cbn [fst snd]; [|done].
      rewrite bind_result. by destruct (create_repo_summary cfg r l2) as [[s|x] l3]. }
    pose proof (create_directory_tree_stops basename_normpath v cfg repo_dir
                  r l1 Hd) as Htree.
    pose proof (framed_fst _ l1
                  (framed_create_directory_tree basename_normpath v cfg
                     repo_dir r)) as Htree0.
    destruct (create_directory_tree basename_normpath v cfg repo_dir r l1)
      as [[tree|x] l2]; cbn [fst snd] in *.
    + pose proof (walk_meets cfg r [] l2) as Hwalk.
      pose proof (framed_fst _ l2 (framed_walk cfg r [])) as Hwalk0.
      fold (create_repo_summary cfg r) in Hwalk, Hwalk0.
      fold (size_errors cfg r) in Hwalk.
      destruct (create_repo_summary cfg r l2) as [[s|x] l3];
        cbn [fst snd meets] in *.
      * split; [done|]. intros _ _. by exists tree, s.
      * split; [intros e [= <-]; auto|]. intros _ E. by rewrite E in Hwalk.
    + split; [intros e [= <-]; auto|]. intros E. by rewrite E in Htree.
Qed.

(** X13.  The command line.  Without an argument it prints the usage line
    and exits with status 1 before it looks at the file system.  With
    arguments it prints the prompt and exits with 0 when [generate_prompt]
    returns and the prompt can be printed; when [generate_prompt] raises, or
    the printing of the prompt does, it prints ["Error: ..."] for that
    exception and exits with 1.  An exception raised by the printing of the
    usage line or of the error line escapes.  Missing optional arguments count
    as empty strings and arguments past the third are ignored. *)
Theorem main_outcome
    (basename_normpath : string -> string) (v : variant) (cfg : config)
    (resolve : string -> option node) (stdout_error : string -> option exn)
    (prog : string) (args : list string) (l : log) :
  match args with
  | [] =>
      main basename_normpath v cfg resolve stdout_error prog [] l
      = (match stdout_error (usage prog) with
         | None => Ok ([usage prog], 1)
         | Some e => Raise e
         end, l)
  | repo_dir :: rest =>
      match generate_prompt basename_normpath v cfg repo_dir (resolve repo_dir)
              (Some (nth 0 rest "")) (Some (nth 1 rest "")) l with
      | (Ok prompt, l') =>
          main basename_normpath v cfg resolve stdout_error prog args l
          = (match stdout_error prompt with
             | None => Ok ([prompt], 0)
             | Some e => reported stdout_error e
             end, l')
      | (Raise e, l') =>
          main basename_normpath v cfg resolve stdout_error prog args l
          = (reported stdout_error e, l')
      end
  end.
Proof.
  destruct args as [|repo_dir rest].
  { unfold main, print, bind. cbn [length].
    by destruct (stdout_error (usage prog)). }
  unfold main. cbn [length nth].
  destruct (Z.ltb_spec (Z.of_nat (S (S (length rest)))) 2) as [H|_]; [lia|].
  assert ((if Z.of_nat (S (S (length rest))) >? 2 then nth 0 rest "" else "")
          = nth 0 rest "") as ->.
  { destruct rest; [by destruct (_ >? _)|].
    by destruct (Z.gtb_spec (Z.of_nat (S (S (length (s :: rest))))) 2);
      [|simpl length in *; lia]. }
  assert ((if Z.of_nat (S (S (length rest))) >? 3 then nth 1 rest "" else "")
          = nth 1 rest "") as ->.
  { destruct rest as [|a [|b rest]]; try by destruct (_ >? _).
    by destruct (Z.gtb_spec (Z.of_nat (S (S (length (a :: b :: rest))))) 3);
      [|simpl length in *; lia]. }
  unfold try_except, print, reported, bind.
  destruct (generate_prompt _ _ _ _ _ _ _ l) as [[prompt|e] l'].
  - destruct (stdout_error prompt) as [e|]; [|done].
    unfold raise. by destruct (stdout_error _).
  - by destruct (stdout_error _).
Qed.

(** ** What the walker records and touches *)

(** X4.  In a successful walk the entries stand for the traversed directories
    with a kept file, in the order of the traversal; each lists its kept files
    in the order of the listing, none twice and none left out, an oversized
    one with the placeholder and the others with what [summarize_text_file]
    returns for them; no entry is empty. *)
Theorem create_repo_summary_entries
    (cfg : config) (root : node) (l : log)
    (repo_summary : list DirectoryEntry) (l' : log) :
  create_repo_summary cfg root l = (Ok repo_summary, l') ->
  Forall2
    (fun entry d =>
       directory entry = rel_dir d.1
       /\ map name (files entry)
          = map fst (filter (fun e => eligible cfg e.1) (files_of d.2))
       /\ Forall2 (file_rel cfg d.1) (files entry)
            (filter (fun e => eligible cfg e.1) (files_of d.2))
       /\ files entry <> [])
    repo_summary
    (filter (fun d => has_eligible cfg d.2) (visited cfg root [])).
Proof.
  intros Hrun. apply walk_ok in Hrun.
  assert (Forall (fun d : path * list (string * node) => has_eligible cfg d.2)
            (filter (fun d => has_eligible cfg d.2) (visited cfg root [])))
    as Hhas by apply Forall_filter_self.
  induction Hrun as [|entry d s ds [Hdir Hfiles] _ IH]; [constructor|].
  apply Forall_cons_1 in Hhas as [Hd Hhas].
  constructor; [|by apply IH]. split_and!; [done| |done|].
  - eapply Forall2_map_eq; [|exact Hfiles]. by intros fi e [? _].
  - apply has_eligible_filter in Hd. intros E. rewrite E in Hfiles.
    by apply Forall2_nil_inv_l in Hfiles.
Qed.

(** X12.  Whatever its outcome, the walker touches the file system only to
    list a directory it goes through, to ask the size of a kept file of such
    a directory, and to open and read such a file whose size it could read
    and found within the limit. *)
Theorem create_repo_summary_events (cfg : config) (root : node) :
  emits (walk_event cfg root []) (create_repo_summary cfg root).
Proof. apply emits_walk. Qed.

(** ** Messages of blanks *)

Lemma lstrip_all_space s : all_space s = true -> lstrip s = "".
Proof.
  induction s as [s H|c s H IH|c1 c2 s H IH|c1 c2 c3 s H IH] using space_ind.
  - destruct s as [|c s]; [done|]. by rewrite all_space_0.
  - by rewrite all_space_1, lstrip_1.
  - by rewrite all_space_2, lstrip_2.
  - by rewrite all_space_3, lstrip_3.
Qed.

(** X9.  A system message or user instructions made of whitespace only are
    not replaced by the fallback sentence: the section holds an empty line. *)
Theorem blank_message_gives_empty_section
    (repo_summary : list DirectoryEntry) (directory_tree : string)
    (system_message user_instructions : string) :
  system_message <> "" -> all_space system_message = true ->
  user_instructions <> "" -> all_space user_instructions = true ->
  prompt_parts repo_summary directory_tree
    (Some system_message) (Some user_instructions)
  = [ "DIRECTORY TREE:"; directory_tree; "";
      "<SYSTEM_MESSAGE>"; ""; "</SYSTEM_MESSAGE>" +:+ NL;
      "<USER_INSTRUCTIONS>"; ""; "</USER_INSTRUCTIONS>" +:+ NL;
      "<REPOSITORY_CONTENTS>" ]
    ++ concat (map format_entry repo_summary)
    ++ [ "</REPOSITORY_CONTENTS>" ].
Proof.
  intros Hs1 Hs2 Hu1 Hu2. unfold prompt_parts.
  destruct system_message as [|c s]; [done|].
  destruct user_instructions as [|c' u]; [done|].
  cbn [truthy text_of]. unfold strip.
  by rewrite !lstrip_all_space.
Qed.

(** ** The shape of the tree *)

Section TreeShape.
Variable v : variant.
Variable cfg : config.

Lemma under_prefix_step prefix unit line :
  under_prefix (prefix +:+ unit) line -> under_prefix prefix line.
Proof. intros (rest & ->). exists (unit +:+ rest). apply append_assoc. Qed.

Lemma entry_size_kept e :
  e.1 ∉ ignored_dirs cfg ->
  entry_size v cfg (tree_size v cfg) e
  = match e.2 with
    | Dir _ _ => S (tree_size v cfg e.2)
    | File _ =>
        if tree_filters_extensions v
           && bool_decide (lower (splitext e.1).2 ∈ ignored_extensions cfg)
        then 0%nat else 1%nat
    end.
Proof. intros Hk. unfold entry_size. by rewrite bool_decide_eq_false_2. Qed.

Lemma tree_loop_shape p prefix len i entries l lines l' :
  Forall (fun e => e.1 ∉ ignored_dirs cfg) entries ->
  Forall (fun e => forall q pre l lines l',
            walk_directory v cfg e.2 q pre l = (Ok lines, l') ->
            length lines = tree_size v cfg e.2
            /\ Forall (under_prefix pre) lines) entries ->
  tree_loop v cfg p prefix len i (map (tree_entry v cfg) entries) l
  = (Ok lines, l') ->
  length lines = tree_size_below v cfg (tree_size v cfg) entries
  /\ Forall (under_prefix prefix) lines.
Proof.
  intros Hkept H. revert i l lines l'.
  induction H as [|[d c] rest Hc _ IH]; intros i l lines l'.
  - simpl. intros [= <- <-]. by split.
  - apply Forall_cons_1 in Hkept as [Hk Hkept].
    cbn [map]. unfold tree_entry at 1. cbn [fst snd].
    rewrite tree_loop_cons.
    intros (isd & l1 & [= <- <-] & Hrun)%bind_ok.
    apply bind_ok in Hrun as (own & l2 & Hown & Hrun).
    apply bind_ok in Hrun as (more & l3 & Hmore & [= <- <-]).
    apply (IH Hkept) in Hmore as [Hlen Hpre].
    cbn [tree_size_below]. rewrite entry_size_kept by done. cbn [fst snd].
    rewrite length_app, Hlen. rewrite Forall_app.
    destruct c as [f|err es]; cbn [is_dir] in Hown.
    + destruct (tree_filters_extensions v && _); injection Hown as <- <-.
      * by split_and!.
      * split_and!; [done| |done]. repeat constructor. by eexists.
    + apply bind_ok in Hown as (below & l4 & Hbelow & [= <- <-]).
      apply Hc in Hbelow as [Hlen' Hpre']. simpl length. rewrite Hlen'.
      split_and!; [done| |done]. constructor; [by eexists|].
      eapply Forall_impl; [exact Hpre'|]. intros line. apply under_prefix_step.
Qed.

Lemma tree_size_below_perm es es' :
  Permutation es es' ->
  tree_size_below v cfg (tree_size v cfg) es
  = tree_size_below v cfg (tree_size v cfg) es'.
Proof. induction 1; simpl; lia. Qed.

Lemma tree_size_below_filter es :
  tree_size_below v cfg (tree_size v cfg)
    (filter (fun e => e.1 ∉ ignored_dirs cfg) es)
  = tree_size_below v cfg (tree_size v cfg) es.
Proof.
  induction es as [|e es IH]; [done|]. rewrite filter_cons.
  destruct (decide (e.1 ∉ ignored_dirs cfg)) as [Hk|Hk]; simpl; [lia|].
  rewrite IH. unfold entry_size.
  rewrite bool_decide_eq_true_2 by (by apply dec_stable). done.
Qed.

Lemma walk_directory_shape n p prefix l lines l' :
  walk_directory v cfg n p prefix l = (Ok lines, l') ->
  length lines = tree_size v cfg n /\ Forall (under_prefix prefix) lines.
Proof.
  revert p prefix l lines l'.
  induction n as [f|err es IH] using node_ind_entries;
    intros p prefix l lines l'.
  - simpl. unfold bind, emit, raise. done.
  - cbn [walk_directory]. intros (? & l0 & _ & Hrun)%bind_ok.
    destruct err as [e|]; [done|].
    rewrite walk_directory_entries in Hrun.
    apply tree_loop_shape in Hrun as [Hlen Hpre].
    + split; [|done]. rewrite Hlen. cbn [tree_size].
      rewrite tree_size_below_filter. apply tree_size_below_perm, sorted_perm.
    + apply Forall_filter_self.
    + apply Forall_filter_keep, Forall_sorted. exact IH.
Qed.

End TreeShape.

(** X10.  A tree that is rendered has one line per shown entry below the
    root: one for every directory and every file whose name is not ignored,
    at any depth, except, in [generator.py], the files with an ignored
    extension.  Every line of a subtree starts with the prefix the subtree
    was rendered with. *)
Theorem tree_lines_shape
    (v : variant) (cfg : config) (n : node) (p : path) (prefix : string)
    (l : log) (lines : list string) (l' : log) :
  walk_directory v cfg n p prefix l = (Ok lines, l') ->
  length lines = tree_size v cfg n
  /\ Forall (under_prefix prefix) lines.
Proof. apply walk_directory_shape. Qed.

(** ** The connector of the last entry *)

Section Connector.
Variable v : variant.
Variable cfg : config.

Lemma tree_loop_files_before_ignored p prefix len i init last l :
  tree_filters_extensions v = true ->
  Forall (fun e => is_dir e.2 = false) init ->
  is_dir last.2 = false ->
  lower (splitext last.1).2 ∈ ignored_extensions cfg ->
  i + Z.of_nat (length init) < len ->
  tree_loop v cfg p prefix len i (map (tree_entry v cfg) (init ++ [last])) l
  = (Ok (map (fun e => prefix +:+ TEE +:+ e.1)
           (filter (fun e => lower (splitext e.1).2 ∉ ignored_extensions cfg)
              init)),
     l ++ map (fun e => Isdir (p ++ [e.1])) (init ++ [last])).
Proof.
  intros Hv H Hlast Hext. revert i l.
  induction H as [|[d c] rest Hc _ IH]; intros i l Hi.
  - destruct last as [d c]. cbn [app map]. unfold tree_entry. cbn [fst snd] in *.
    rewrite tree_loop_cons, Hlast, Hv. unfold bind at 1.
    rewrite os_path_isdir_run. unfold bind at 1.
    rewrite bool_decide_eq_true_2 by done. done.
  - cbn [app map]. unfold tree_entry at 1. cbn [fst snd] in *.
    rewrite tree_loop_cons, Hc, Hv. unfold bind at 1.
    rewrite os_path_isdir_run. unfold bind at 1.
    destruct (Z.eqb_spec i (len - 1)) as [E|_]; [simpl length in Hi; lia|].
    rewrite filter_cons. cbn [fst andb].
    case_bool_decide as Hd.
    + rewrite decide_False by tauto. unfold ret at 1. unfold bind.
      rewrite IH by (simpl length in Hi; lia). unfold ret.
      by rewrite <- app_assoc.
    + rewrite decide_True by done. unfold ret at 1. unfold bind.
      rewrite IH by (simpl length in Hi; lia). unfold ret.
      by rewrite <- app_assoc.
Qed.

End Connector.

(** X11.  The renderer of [generator.py] picks the connector of an entry
    before it skips files with an ignored extension.  In a directory of
    regular files whose last shown name belongs to such a file, every line is
    drawn with the connector of an entry that has a successor, and none with
    the one of the last entry. *)
Theorem ignored_extension_last_leaves_no_last_connector
    (v : variant) (cfg : config) (es init : list (string * node))
    (last : string * node) (p : path) (prefix : string) (l : log) :
  tree_filters_extensions v = true ->
  filter (fun e => e.1 ∉ ignored_dirs cfg) (sorted es) = init ++ [last] ->
  Forall (fun e => is_dir e.2 = false) init ->
  is_dir last.2 = false ->
  lower (splitext last.1).2 ∈ ignored_extensions cfg ->
  walk_directory v cfg (Dir None es) p prefix l
  = (Ok (map (fun e => prefix +:+ TEE +:+ e.1)
           (filter (fun e => lower (splitext e.1).2 ∉ ignored_extensions cfg)
              init)),
     l ++ Listdir p :: map (fun e => Isdir (p ++ [e.1])) (init ++ [last])).
Proof.
  intros Hv Hsorted Hinit Hlast Hext. cbn [walk_directory].
  unfold bind at 1, emit. rewrite walk_directory_entries, Hsorted.
  rewrite tree_loop_files_before_ignored
    by (try done; rewrite length_map, length_app; simpl; lia).
  by rewrite <- app_assoc.
Qed.

(** ** The further properties at work on the examples *)

Example locked_file_summary :
  summarize_text_file ["locked"] locked_file 500 []
  = (Ok "Error reading file: [Errno 13] Permission denied", [Open ["locked"]]).
Proof. reflexivity. Qed.

Example broken_file_summary :
  summarize_text_file ["broken"] broken_file 500 []
  = (Ok "Error reading file: 'utf-8' codec can't decode byte 0xff",
     [Open ["broken"]; Readline ["broken"]; Readline ["broken"]]).
Proof. vm_compute. reflexivity. Qed.

Example short_broken_file_summary :
  summarize_text_file ["broken"] short_broken_file 1 []
  = (Ok "Error reading file: 'utf-8' codec can't decode byte 0xff",
     [Open ["broken"]])
  /\ summarize_text_file ["broken"] short_broken_file 0 []
     = (Ok "Error reading file: 'utf-8' codec can't decode byte 0xff",
        [Open ["broken"]]).
Proof. split; reflexivity. Qed.

Example broken_file_without_cap :
  summarize_text_file ["broken"] broken_file 0 []
  = (Ok "... [Truncated]", [Open ["broken"]; Readline ["broken"]]).
Proof. vm_compute. reflexivity. Qed.

Example main_prints_prompt :
  main (fun s => s) GeneratorPy Generator.constants
    (fun _ => Some (Dir None [])) (fun _ => None) "generator.py" ["repo"] []
  = (Ok ([ "DIRECTORY TREE:" +:+ NL +:+ "repo/" +:+ NL +:+ NL
           +:+ "<SYSTEM_MESSAGE>" +:+ NL
           +:+ "No system message provided." +:+ NL
           +:+ "</SYSTEM_MESSAGE>" +:+ NL +:+ NL
           +:+ "<USER_INSTRUCTIONS>" +:+ NL
           +:+ "No user instructions provided." +:+ NL
           +:+ "</USER_INSTRUCTIONS>" +:+ NL +:+ NL
           +:+ "<REPOSITORY_CONTENTS>" +:+ NL +:+ "</REPOSITORY_CONTENTS>" ], 0),
     [Isdir []; Listdir []; Scandir []]).
Proof. vm_compute. reflexivity. Qed.

Example main_reports_failed_print :
  main (fun s => s) GeneratorPy Generator.constants
    (fun _ => Some (Dir None []))
    (fun text => if String.prefix "Error" text then None
                 else Some (ValueError "'ascii' codec can't encode character"))
    "generator.py" ["repo"] []
  = (Ok ([ "Error: 'ascii' codec can't encode character" ], 1),
     [Isdir []; Listdir []; Scandir []]).
Proof. vm_compute. reflexivity. Qed.

Example main_failed_report_escapes :
  main (fun s => s) GeneratorPy Generator.constants
    (fun _ => None) (fun _ => Some (OSError "[Errno 32] Broken pipe"))
    "generator.py" ["missing"] []
  = (Raise (OSError "[Errno 32] Broken pipe"), [Isdir []]).
Proof. vm_compute. reflexivity. Qed.

Example picture_last_tree :
  (Generator.create_directory_tree (fun s => s) "repo" picture_last_repo []).1
  = Ok ("repo/" +:+ NL +:+ "├── a.txt" +:+ NL +:+ "├── b.txt").
Proof. vm_compute. reflexivity. Qed.

Example locked_dir_prompt :
  (Generator.generate_prompt (fun s => s) "repo" (Some locked_dir_repo)
     None None []).1
  = Raise permission_denied.
Proof. vm_compute. reflexivity. Qed.

Lemma summarize_text_file_error_witness :
  f_content locked_file = Unopenable permission_denied
  /\ exists l',
       summarize_text_file ["locked"] locked_file 500 []
       = (Ok ("Error reading file: " +:+ str_of_exn permission_denied), l').
Proof.
  split; [reflexivity|].
  apply (summarize_text_file_error ["locked"] locked_file permission_denied 500 []).
  left. reflexivity.
Defined.

Lemma summarize_text_file_stops_before_failure_witness :
  f_content broken_file = Stream (long_line +:+ long_line) (Some bad_byte)
  /\ 0 <= 1 < line_count (long_line +:+ long_line)
  /\ summarize_text_file ["broken"] broken_file 1 []
     = (Ok (join_nl (map chomp (take (Z.to_nat 1)
                                  (readlines (long_line +:+ long_line)))
                     ++ [TRUNCATED])),
        [] ++ Open ["broken"] :: repeat (Readline ["broken"]) (Z.to_nat (1 + 1))).
Proof.
  assert (0 <= 1 < line_count (long_line +:+ long_line)) as Hn
    by (vm_compute; split; [discriminate|reflexivity]).
  split; [reflexivity|]. split; [exact Hn|].
  apply (summarize_text_file_stops_before_failure ["broken"] broken_file
           (long_line +:+ long_line) (Some bad_byte) 1 [] eq_refl Hn).
Defined.

Lemma content_block_of_readable_file_witness :
  f_content hello_file = Stream ("hello" +:+ NL) None
  /\ "hello" +:+ NL <> ""
  /\ exists s l',
       summarize_text_file ["a.txt"] hello_file 500 [] = (Ok s, l')
       /\ format_file {| name := "a.txt"; summary := s |}
          = [ "    <file name=" +:+ QUOTE +:+ "a.txt" +:+ QUOTE +:+ ">";
              "      <content>" ]
            ++ map (fun line => nine_spaces +:+ line)
                 (expected_summary ("hello" +:+ NL) 500)
            ++ [ "      </content>"; "    </file>" ].
Proof.
  assert ("hello" +:+ NL <> "") as Hne by discriminate.
  split; [reflexivity|]. split; [exact Hne|].
  apply (content_block_of_readable_file ["a.txt"] hello_file ("hello" +:+ NL)
           500 [] "a.txt" eq_refl Hne).
  lia.
Defined.

Lemma create_repo_summary_entries_witness :
  create_repo_summary Generator.constants example_repo []
  = (Ok example_summary, example_log)
  /\ Forall2
       (fun entry d =>
          directory entry = rel_dir d.1
          /\ map name (files entry)
             = map fst (filter (fun e => eligible Generator.constants e.1)
                          (files_of d.2))
          /\ Forall2 (file_rel Generator.constants d.1) (files entry)
               (filter (fun e => eligible Generator.constants e.1)
                  (files_of d.2))
          /\ files entry <> [])
       example_summary
       (filter (fun d => has_eligible Generator.constants d.2)
          (visited Generator.constants example_repo [])).
Proof.
  assert (create_repo_summary Generator.constants example_repo []
          = (Ok example_summary, example_log)) as Hrun
    by (vm_compute; reflexivity).
  split; [exact Hrun|].
  apply (create_repo_summary_entries Generator.constants example_repo []
           example_summary example_log Hrun).
Defined.

Lemma create_directory_tree_outcome_witness :
  is_dir locked_dir_repo = true
  /\ forall e,
       (create_directory_tree (fun s => s) GeneratorPy Generator.constants
          "repo" locked_dir_repo []).1 = Raise e ->
       In e (unlistable Generator.constants locked_dir_repo).
Proof.
  split; [reflexivity|].
  apply (create_directory_tree_outcome (fun s => s) GeneratorPy
           Generator.constants "repo" locked_dir_repo [] eq_refl).
Defined.

Lemma tree_independent_of_listing_order_witness :
  Permutation [ ("b.txt", File hello_file); ("a.txt", File hello_file) ]
              [ ("a.txt", File hello_file); ("b.txt", File hello_file) ]
  /\ List.NoDup (map fst [ ("b.txt", File hello_file); ("a.txt", File hello_file) ])
  /\ walk_directory RepoforgePy Repoforge.defaults
       (Dir None [ ("b.txt", File hello_file); ("a.txt", File hello_file) ])
       [] "" []
     = walk_directory RepoforgePy Repoforge.defaults
         (Dir None [ ("a.txt", File hello_file); ("b.txt", File hello_file) ])
         [] "" [].
Proof.
  assert (Permutation [ ("b.txt", File hello_file); ("a.txt", File hello_file) ]
                      [ ("a.txt", File hello_file); ("b.txt", File hello_file) ])
    as Hp by apply perm_swap.
  assert (List.NoDup (map fst [ ("b.txt", File hello_file);
                                ("a.txt", File hello_file) ])) as Hnd.
  { simpl. constructor.
    - intros [H|[]]. discriminate H.
    - constructor; [intros []|constructor]. }
  split; [exact Hp|]. split; [exact Hnd|].
  apply (tree_independent_of_listing_order RepoforgePy Repoforge.defaults
           _ _ [] "" [] Hp Hnd).
Defined.

Lemma blank_message_gives_empty_section_witness :
  " " <> "" /\ all_space " " = true
  /\ prompt_parts [] "repo/" (Some " ") (Some " ")
     = [ "DIRECTORY TREE:"; "repo/"; "";
         "<SYSTEM_MESSAGE>"; ""; "</SYSTEM_MESSAGE>" +:+ NL;
         "<USER_INSTRUCTIONS>"; ""; "</USER_INSTRUCTIONS>" +:+ NL;
         "<REPOSITORY_CONTENTS>" ]
       ++ concat (map format_entry [])
       ++ [ "</REPOSITORY_CONTENTS>" ].
Proof.
  assert (" " <> "") as Hne by discriminate.
  split; [exact Hne|]. split; [reflexivity|].
  apply (blank_message_gives_empty_section [] "repo/" " " " "
           Hne eq_refl Hne eq_refl).
Defined.

Lemma tree_lines_shape_witness :
  walk_directory GeneratorPy Generator.constants pictures_repo [] "" []
  = (Ok [ "└── img/"; "    ├── src/"; "    │   └── m.py" ],
     [ Listdir []; Isdir ["img"]; Listdir ["img"]; Isdir ["img"; "src"];
       Listdir ["img"; "src"]; Isdir ["img"; "src"; "m.py"];
       Isdir ["img"; "x.png"] ])
  /\ length [ "└── img/"; "    ├── src/"; "    │   └── m.py" ]
     = tree_size GeneratorPy Generator.constants pictures_repo.
Proof.
  assert (walk_directory GeneratorPy Generator.constants pictures_repo [] "" []
          = (Ok [ "└── img/"; "    ├── src/"; "    │   └── m.py" ],
             [ Listdir []; Isdir ["img"]; Listdir ["img"]; Isdir ["img"; "src"];
               Listdir ["img"; "src"]; Isdir ["img"; "src"; "m.py"];
               Isdir ["img"; "x.png"] ])) as Hrun
    by (vm_compute; reflexivity).
  split; [exact Hrun|].
  apply (tree_lines_shape GeneratorPy Generator.constants pictures_repo [] "" []
           _ _ Hrun).
Defined.

Lemma ignored_extension_last_leaves_no_last_connector_witness :
  tree_filters_extensions GeneratorPy = true
  /\ filter (fun e => e.1 ∉ ignored_dirs Generator.constants)
       (sorted [ ("z.png", File hello_file); ("a.txt", File hello_file);
                 ("b.txt", File hello_file) ])
     = [ ("a.txt", File hello_file); ("b.txt", File hello_file) ]
       ++ [ ("z.png", File hello_file) ]
  /\ walk_directory GeneratorPy Generator.constants picture_last_repo [] "" []
     = (Ok (map (fun e => "" +:+ TEE +:+ e.1)
              (filter (fun e => lower (splitext e.1).2
                                ∉ ignored_extensions Generator.constants)
                 [ ("a.txt", File hello_file); ("b.txt", File hello_file) ])),
        [] ++ Listdir []
           :: map (fun e => Isdir ([] ++ [e.1]))
                ([ ("a.txt", File hello_file); ("b.txt", File hello_file) ]
                 ++ [ ("z.png", File hello_file) ])).
Proof.
  assert (filter (fun e => e.1 ∉ ignored_dirs Generator.constants)
            (sorted [ ("z.png", File hello_file); ("a.txt", File hello_file);
                      ("b.txt", File hello_file) ])
          = [ ("a.txt", File hello_file); ("b.txt", File hello_file) ]
            ++ [ ("z.png", File hello_file) ]) as Hsorted
    by (vm_compute; reflexivity).
  assert (lower (splitext "z.png").2 ∈ ignored_extensions Generator.constants)
    as Hext by (apply (bool_decide_unpack _); vm_compute; exact I).
  split; [reflexivity|]. split; [exact Hsorted|].
  apply (ignored_extension_last_leaves_no_last_connector GeneratorPy
           Generator.constants _ _ ("z.png", File hello_file) [] "" []
           eq_refl Hsorted).
  - repeat constructor.
  - reflexivity.
  - exact Hext.
Defined.

(** ** A cap of zero or less *)

(** X14.  With a cap of zero or below, a file whose iteration delivers a
    line is summarised by the marker alone: that line is fetched and dropped
    and no other fetch is made, so what a later fetch would give, a line or a
    failure, plays no part.  (A file whose first fetch fails delivers no line:
    it is summarised by the error line.) *)
Theorem summarize_text_file_without_cap
    (filepath : path) (f : file) (text : string) (tail : option exn)
    (max_lines : Z) (l : log) :
  f_content f = Stream text tail ->
  text <> "" ->
  max_lines <= 0 ->
  summarize_text_file filepath f max_lines l
  = (Ok "... [Truncated]", l ++ [Open filepath; Readline filepath]).
Proof.
  intros Hf Hne%readlines_nonempty Hmax.
  unfold summarize_text_file, bind at 1, try_except, bind at 1, emit.
  rewrite Hf. destruct (readlines text) as [|line rest]; [done|].
  cbn [read_loop]. unfold bind, emit.
  destruct (Z.geb_spec 0 max_lines); [|lia].
  unfold ret. cbn [app join_nl String.concat]. by rewrite <- app_assoc.
Qed.

(** ** The entry of the root directory *)

(** X15.  When the root directory holds a kept file, a successful walk puts
    its entry first, under the empty relative path, and the formatter shows
    it as [(top-level)]. *)
Theorem root_entry_is_top_level
    (cfg : config) (es : list (string * node)) (l : log)
    (repo_summary : list DirectoryEntry) (l' : log) :
  has_eligible cfg es = true ->
  create_repo_summary cfg (Dir None es) l = (Ok repo_summary, l') ->
  exists entry rest,
    repo_summary = entry :: rest
    /\ directory entry = ""
    /\ map name (files entry)
       = map fst (filter (fun e => eligible cfg e.1) (files_of es))
    /\ head (format_entry entry)
       = Some ("  <directory name=" +:+ QUOTE +:+ "(top-level)" +:+ QUOTE +:+ ">").
Proof.
  intros Hhas Hrun. apply walk_ok in Hrun. cbn [visited] in Hrun.
  rewrite filter_cons_True in Hrun by (cbn [snd]; by rewrite Hhas).
  apply Forall2_cons_inv_r in Hrun as (entry & rest & [Hdir Hfiles] & _ & ->).
  exists entry, rest. cbn [fst snd] in *. split_and!; [done|done| |].
  - eapply Forall2_map_eq; [|exact Hfiles]. by intros fi e [? _].
  - unfold format_entry. by rewrite Hdir.
Qed.

(** ** The tree of [repoforge.py] and the rest of the configuration *)

Lemma filter_kept_same cfg l k :
  Forall2 same_entry l k ->
  Forall2 same_entry (filter (fun e => e.1 ∉ ignored_dirs cfg) l)
    (filter (fun e => e.1 ∉ ignored_dirs cfg) k).
Proof.
  induction 1 as [|a b l k Hab _ IH]; [constructor|].
  rewrite !filter_cons. destruct Hab as (Hn & Hrest).
  destruct (decide (a.1 ∉ ignored_dirs cfg)) as [H1|H1],
           (decide (b.1 ∉ ignored_dirs cfg)) as [H2|H2];
    rewrite Hn in H1; try done.
  constructor; [by split|done].
Qed.

Lemma tree_loop_other_config cfg cfg' p prefix len i entries entries' l :
  Forall2 same_entry entries entries' ->
  tree_loop RepoforgePy cfg p prefix len i entries l
  = tree_loop RepoforgePy cfg' p prefix len i entries' l.
Proof.
  intros H. revert i l.
  induction H as [|[n [d r]] [n' [d' r']] es es' (Hn & Hd & Hr) _ IH];
    intros i l; [done|].
  simpl in Hn, Hd, Hr. subst n' d'. rewrite !tree_loop_cons.
  apply bind_ext. intros isd l1.
  etrans; [apply bind_ext; intros; apply bind_ext_l, IH|].
  apply bind_ext_l. destruct isd; [|done]. apply bind_ext_l, Hr.
Qed.

(** X16.  The tree of [repoforge.py] is fixed by the ignored-directory set
    alone: the ignored extensions, the size limit and the line cap play no
    part in it, so it shows files that the repository contents leave out. *)
Theorem repoforge_tree_ignores_other_settings
    (cfg cfg' : config) (n : node) (p : path) (prefix : string) (l : log) :
  ignored_dirs cfg = ignored_dirs cfg' ->
  walk_directory RepoforgePy cfg n p prefix l
  = walk_directory RepoforgePy cfg' n p prefix l.
Proof.
  intros Hdirs. revert p prefix l.
  induction n as [f|err es IH] using node_ind_entries; intros p prefix l.
  - done.
  - cbn [walk_directory]. apply bind_ext. intros _ l1.
    destruct err as [e|]; [done|]. rewrite <- Hdirs.
    assert (Forall2 same_entry
              (filter (fun e => e.1 ∉ ignored_dirs cfg)
                 (sorted (map (fun e => (e.1, (is_dir e.2,
                                               walk_directory RepoforgePy cfg e.2)))
                            es)))
              (filter (fun e => e.1 ∉ ignored_dirs cfg)
                 (sorted (map (fun e => (e.1, (is_dir e.2,
                                               walk_directory RepoforgePy cfg' e.2)))
                            es)))) as Hsame.
    { apply filter_kept_same, sorted_same.
      induction IH as [|e es He _ IHes]; constructor; [|done].
      by split_and!. }
    rewrite (Forall2_length _ _ _ Hsame). by apply tree_loop_other_config.
Qed.

Example repoforge_tree_shows_pictures :
  (Repoforge.create_directory_tree (fun s => s) DEFAULT_IGNORED_DIRS "repo"
     picture_last_repo []).1
  = Ok ("repo/" +:+ NL +:+ "├── a.txt" +:+ NL +:+ "├── b.txt" +:+ NL
        +:+ "└── z.png").
Proof. vm_compute. reflexivity. Qed.

Lemma summarize_text_file_without_cap_witness :
  f_content hello_file = Stream ("hello" +:+ NL) None
  /\ "hello" +:+ NL <> ""
  /\ -1 <= 0
  /\ summarize_text_file ["a.txt"] hello_file (-1) []
     = (Ok "... [Truncated]", [] ++ [Open ["a.txt"]; Readline ["a.txt"]]).
Proof.
  assert ("hello" +:+ NL <> "") as Hne by discriminate.
  assert (-1 <= 0) as Hle by lia.
  split; [reflexivity|]. split; [exact Hne|]. split; [exact Hle|].
  apply (summarize_text_file_without_cap ["a.txt"] hello_file ("hello" +:+ NL)
           None (-1) [] eq_refl Hne Hle).
Defined.

Lemma root_entry_is_top_level_witness :
  has_eligible Generator.constants
    [ ("a.txt", File hello_file);
      (".git", Dir None [ ("config", File hello_file) ]) ] = true
  /\ create_repo_summary Generator.constants example_repo []
     = (Ok example_summary, example_log)
  /\ exists entry rest,
       example_summary = entry :: rest
       /\ directory entry = ""
       /\ map name (files entry)
          = map fst (filter (fun e => eligible Generator.constants e.1)
                       (files_of [ ("a.txt", File hello_file);
                                   (".git", Dir None [ ("config", File hello_file) ]) ]))
       /\ head (format_entry entry)
          = Some ("  <directory name=" +:+ QUOTE +:+ "(top-level)" +:+ QUOTE
                  +:+ ">").
Proof.
  assert (has_eligible Generator.constants
            [ ("a.txt", File hello_file);
              (".git", Dir None [ ("config", File hello_file) ]) ] = true)
    as Hhas by (vm_compute; reflexivity).
  assert (create_repo_summary Generator.constants example_repo []
          = (Ok example_summary, example_log)) as Hrun
    by (vm_compute; reflexivity).
  split; [exact Hhas|]. split; [exact Hrun|].
  apply (root_entry_is_top_level Generator.constants _ [] example_summary
           example_log Hhas Hrun).
Defined.

Lemma repoforge_tree_ignores_other_settings_witness :
  ignored_dirs Repoforge.defaults = ignored_dirs upper_case_config
  /\ walk_directory RepoforgePy Repoforge.defaults picture_last_repo [] "" []
     = walk_directory RepoforgePy upper_case_config picture_last_repo [] "" [].
Proof.
  split; [reflexivity|].
  apply (repoforge_tree_ignores_other_settings Repoforge.defaults
           upper_case_config picture_last_repo [] "" [] eq_refl).
Defined.
